(** * core-js-101, 05-objects-tasks.js: the CSS selector builder and the
      JSON helpers, embedded with an explicit object store.

    The builder of the source is one shared object, [cssSelectorBuilder],
    whose methods mutate [this] and hand out objects made by
    [Object.create(cssSelectorBuilder)].  Objects and arrays are therefore
    modelled by reference: a heap of objects (the fields [line] and [order],
    each an own property or delegated to the builder) and a heap of arrays
    (the [order] histories, shared by reference when [addProperty] copies
    the field).  [fromJSON] is modelled on the values [JSON.parse] returns,
    with the prototype chain that an assignment [ans[key] = value] walks. *)

From Stdlib Require Import String Ascii List ZArith Lia.
From stdpp Require Import base option list strings gmap pretty.

Open Scope string_scope.
Open Scope list_scope.

(** ** The object store *)

Module Store.

(** Locations are indices into the lists of the heap. *)
Abbreviation loc := nat.

(** An object whose prototype is the builder.  [None] is a property the
    object does not own: reads go to the builder, writes create the own
    property. *)
Record object := Object {
  own_line : option string;
  own_order : option loc
}.

Record heap := Heap {
  objects : list object;
  arrays : list (list string)
}.

(** The location of the object [cssSelectorBuilder] itself. *)
Definition cssSelectorBuilder : loc := 0.

(** The module as loaded: [line: ''] and [order: []] on the builder. *)
Definition init : heap :=
  Heap [Object (Some "") (Some 0)] [[]].

(** How a method body ends: normally, with a thrown [Error(msg)], or on a
    reference that the heap does not hold (no JavaScript run gets there). *)
Inductive completion (A : Type) :=
| Normal (a : A) (h : heap)
| Throw (msg : string) (h : heap)
| Stuck.
Arguments Normal {A} a h.
Arguments Throw {A} msg h.
Arguments Stuck {A}.

Definition M (A : Type) : Type := heap -> completion A.

Definition ret {A} (a : A) : M A := fun h => Normal a h.

Definition bind {A B} (m : M A) (k : A -> M B) : M B :=
  fun h =>
    match m h with
    | Normal a h' => k a h'
    | Throw msg h' => Throw msg h'
    | Stuck => Stuck
    end.

Definition throw {A} (msg : string) : M A := fun h => Throw msg h.

Definition lift {A} (f : heap -> option A) : M A :=
  fun h => match f h with Some a => Normal a h | None => Stuck end.

Definition modify (f : heap -> option heap) : M unit :=
  fun h => match f h with Some h' => Normal tt h' | None => Stuck end.

End Store.

Import Store.

Notation "x <- m ;; k" := (bind m (fun x => k))
  (at level 100, m at next level, right associativity).
Notation "m ;;; k" := (bind m (fun _ => k))
  (at level 100, right associativity).

(** ** Property access *)

Module Prop_access.

(** [this.line], through the prototype when it is not an own property. *)
Definition read_line (h : heap) (this : loc) : option string :=
  match objects h !! this with
  | Some (Object (Some s) _) => Some s
  | Some (Object None _) =>
      match objects h !! cssSelectorBuilder with
      | Some (Object (Some s) _) => Some s
      | _ => None
      end
  | None => None
  end.

(** [this.order], the reference to the array. *)
Definition read_order (h : heap) (this : loc) : option loc :=
  match objects h !! this with
  | Some (Object _ (Some r)) => Some r
  | Some (Object _ None) =>
      match objects h !! cssSelectorBuilder with
      | Some (Object _ (Some r)) => Some r
      | _ => None
      end
  | None => None
  end.

Definition get_line (this : loc) : M string := lift (fun h => read_line h this).

Definition get_order (this : loc) : M loc := lift (fun h => read_order h this).

(** [this.line = s]: [line] is a writable data property wherever it is
    found, so the assignment sets or creates the own property. *)
Definition set_line (this : loc) (s : string) : M unit :=
  modify (fun h =>
    match objects h !! this with
    | Some o => Some (Heap (<[this := Object (Some s) (own_order o)]> (objects h)) (arrays h))
    | None => None
    end).

Definition set_order (this : loc) (r : loc) : M unit :=
  modify (fun h =>
    match objects h !! this with
    | Some o => Some (Heap (<[this := Object (own_line o) (Some r)]> (objects h)) (arrays h))
    | None => None
    end).

(** The array literal [[]]: a fresh, empty array. *)
Definition new_array : M loc :=
  fun h => Normal (length (arrays h)) (Heap (objects h) (arrays h ++ [[]])).

Definition array_contents (r : loc) : M (list string) :=
  lift (fun h => arrays h !! r).

(** [Array.prototype.push], in place. *)
Definition array_push (r : loc) (x : string) : M unit :=
  modify (fun h =>
    match arrays h !! r with
    | Some a => Some (Heap (objects h) (<[r := a ++ [x]]> (arrays h)))
    | None => None
    end).

(** [Object.create(cssSelectorBuilder)]: a fresh object with no own
    property. *)
Definition Object_create : M loc :=
  fun h => Normal (length (objects h)) (Heap (objects h ++ [Object None None]) (arrays h)).

(** What a caller sees of an object that owns both fields: its text and
    the contents of its history array. *)
Definition view (h : heap) (s : loc) : option (string * list string) :=
  match objects h !! s with
  | Some (Object (Some t) (Some r)) =>
      match arrays h !! r with
      | Some ks => Some (t, ks)
      | None => None
      end
  | _ => None
  end.

End Prop_access.

Import Prop_access.

(** ** cssSelectorBuilder *)

Module Builder.

Definition duplicate_message : string :=
  "Element, id and pseudo-element should not occur more then one time inside the selector".

Definition order_message : string :=
  "Selector parts should be arranged in the following order: element, id, class, attribute, pseudo-class, pseudo-element".

(** A value as [Array.prototype.includes] may receive it in [validate]. *)
Inductive jsval :=
| JString (s : string)
| JBool (b : bool).

(** [a || b] with a string on the left: [a] itself when it is truthy
    (non-empty), and only otherwise the right operand. *)
Definition js_or (a : string) (b : bool) : jsval :=
  match a with
  | EmptyString => JBool b
  | _ => JString a
  end.

(** [order.includes(x)] on an array of strings. *)
Definition includes (order : list string) (x : string) : bool :=
  existsb (String.eqb x) order.

Definition includes_val (order : list string) (x : jsval) : bool :=
  match x with
  | JString s => includes order s
  | JBool _ => false
  end.

(** The first [switch] of [validate]. *)
Definition validate_once (order : list string) (addition : string) : M unit :=
  if addition =? "element" then
    if includes order "element" then throw duplicate_message else ret tt
  else if addition =? "id" then
    if includes order "id" then throw duplicate_message else ret tt
  else if addition =? "pseudoElement" then
    if includes order "pseudoElement" then throw duplicate_message else ret tt
  else ret tt.

(** The second [switch] of [validate].  In the [attr] case the source
    writes [includes('pseudoClass' || this.order.includes('attr'))]. *)
Definition validate_arranged (order : list string) (addition : string) : M unit :=
  if addition =? "element" then
    if includes order "pseudoElement" || includes order "class"
       || includes order "pseudoClass" || includes order "attr"
       || includes order "id"
    then throw order_message else ret tt
  else if addition =? "id" then
    if includes order "pseudoElement" || includes order "class"
       || includes order "pseudoClass" || includes order "attr"
    then throw order_message else ret tt
  else if addition =? "class" then
    if includes order "pseudoElement" || includes order "attr"
       || includes order "pseudoClass"
    then throw order_message else ret tt
  else if addition =? "attr" then
    if includes order "pseudoElement"
       || includes_val order (js_or "pseudoClass" (includes order "attr"))
    then throw order_message else ret tt
  else if addition =? "pseudoClass" then
    if includes order "pseudoElement" then throw order_message else ret tt
  else ret tt.

(** [validate] only reads [this.order]; the array is read once here and
    consulted by every [includes]. *)
Definition validate (this : loc) (addition : string) : M bool :=
  r <- get_order this ;;
  order <- array_contents r ;;
  validate_once order addition ;;;
  validate_arranged order addition ;;;
  ret true.

(** [this.line += s] *)
Definition append_line (this : loc) (s : string) : M unit :=
  t <- get_line this ;; set_line this (t +:+ s).

Fixpoint append_lines (this : loc) (pieces : list string) : M unit :=
  match pieces with
  | [] => ret tt
  | s :: rest => append_line this s ;;; append_lines this rest
  end.

Inductive field := line | order.

(** [addProperty(obj, name)]: define [obj[name]] with the value of
    [this[name]]; for [order] that value is the array reference. *)
Definition addProperty (this obj : loc) (name : field) : M unit :=
  match name with
  | line => t <- get_line this ;; set_line obj t
  | order => r <- get_order this ;; set_order obj r
  end.

(** The body the six fragment methods share: [kind] is the string given to
    [validate] and pushed on [this.order], [pieces] the strings appended to
    [this.line], one [+=] each. *)
Definition fragment (this : loc) (kind : string) (pieces : list string) : M loc :=
  validate this kind ;;;
  append_lines this pieces ;;;
  (r <- get_order this ;; array_push r kind) ;;;
  obj <- Object_create ;;
  addProperty this obj line ;;;
  addProperty this obj order ;;;
  (a <- new_array ;; set_order this a) ;;;
  set_line this "" ;;;
  ret obj.

Definition element (this : loc) (el : string) : M loc :=
  fragment this "element" [el].

Definition id (this : loc) (val : string) : M loc :=
  fragment this "id" ["#"; val].

Definition class (this : loc) (cl : string) : M loc :=
  fragment this "class" ["."; cl].

Definition attr (this : loc) (a : string) : M loc :=
  fragment this "attr" ["["; a; "]"].

Definition pseudoClass (this : loc) (ps : string) : M loc :=
  fragment this "pseudoClass" [":"; ps].

Definition pseudoElement (this : loc) (pse : string) : M loc :=
  fragment this "pseudoElement" ["::"; pse].

Definition stringify (this : loc) : M string :=
  temp <- get_line this ;;
  set_line this "" ;;;
  (a <- new_array ;; set_order this a) ;;;
  ret temp.

Definition toString (this : loc) : M string :=
  temp <- get_line this ;;
  set_line this "" ;;;
  (a <- new_array ;; set_order this a) ;;;
  ret temp.

(** An argument of [combine]: a selector object or a string. *)
Inductive arg :=
| Selector (o : loc)
| Token (s : string).

(** [temp += args[i]]: a string is appended as it is, an object is
    converted with its [toString] method. *)
Definition to_string (a : arg) : M string :=
  match a with
  | Selector o => toString o
  | Token s => ret s
  end.

(** The loop of [combine]; [i < args.length - 1] holds exactly when
    arguments remain after [args[i]]. *)
Fixpoint combine_loop (args : list arg) (temp : string) : M string :=
  match args with
  | [] => ret temp
  | a :: rest =>
      s <- to_string a ;;
      let temp := temp +:+ s in
      let temp := match rest with [] => temp | _ :: _ => temp +:+ " " end in
      combine_loop rest temp
  end.

Definition combine (this : loc) (args : list arg) : M loc :=
  temp <- combine_loop args "" ;;
  set_line this temp ;;;
  ret this.

End Builder.

Import Builder.

(** ** The vocabulary of the specification *)

Module Spec.

Inductive kind :=
| Element | Id | Class | Attribute | PseudoClass | PseudoElement.

(** The string a fragment method passes to [validate] and pushes on
    [this.order]. *)
Definition tag (k : kind) : string :=
  match k with
  | Element => "element"
  | Id => "id"
  | Class => "class"
  | Attribute => "attr"
  | PseudoClass => "pseudoClass"
  | PseudoElement => "pseudoElement"
  end.

(** The fragment method of each kind. *)
Definition add (k : kind) (this : loc) (value : string) : M loc :=
  match k with
  | Element => element this value
  | Id => id this value
  | Class => class this value
  | Attribute => attr this value
  | PseudoClass => pseudoClass this value
  | PseudoElement => pseudoElement this value
  end.

(** The strings each fragment method appends, one [+=] each. *)
Definition pieces (k : kind) (value : string) : list string :=
  match k with
  | Element => [value]
  | Id => ["#"; value]
  | Class => ["."; value]
  | Attribute => ["["; value; "]"]
  | PseudoClass => [":"; value]
  | PseudoElement => ["::"; value]
  end.

Definition concat_pieces (pieces : list string) : string :=
  foldr append "" pieces.

(** Position in the canonical order, from 1; 0 stands for no kind. *)
Definition rank (k : kind) : nat :=
  match k with
  | Element => 1
  | Id => 2
  | Class => 3
  | Attribute => 4
  | PseudoClass => 5
  | PseudoElement => 6
  end.

(** The rendered form of one fragment, as the specification lists it. *)
Definition rendered (k : kind) (value : string) : string :=
  match k with
  | Element => value
  | Id => "#" +:+ value
  | Class => "." +:+ value
  | Attribute => "[" +:+ value +:+ "]"
  | PseudoClass => ":" +:+ value
  | PseudoElement => "::" +:+ value
  end.

Definition kind_eqb (a b : kind) : bool := Nat.eqb (rank a) (rank b).

Definition has (k : kind) (kindsUsed : list kind) : bool :=
  existsb (kind_eqb k) kindsUsed.

Definition singular (k : kind) : bool :=
  match k with
  | Element | Id | PseudoElement => true
  | _ => false
  end.

Definition max_rank (kindsUsed : list kind) : nat :=
  foldr (fun k m => Nat.max (rank k) m) 0 kindsUsed.

Inductive failure := Duplicate | Misordered.

(** The two-rule reference of the specification, in its words: the
    singular-kind check first, then the order check on the maximum rank. *)
Definition validate_reference (k : kind) (kindsUsed : list kind) : option failure :=
  if singular k && has k kindsUsed then Some Duplicate
  else if Nat.ltb (rank k) (max_rank kindsUsed) then Some Misordered
  else None.

Definition message (f : failure) : string :=
  match f with
  | Duplicate => duplicate_message
  | Misordered => order_message
  end.

(** The message the specification quotes for the duplicate error. *)
Definition quoted_duplicate_message : string :=
  "Element, id and pseudo-element should not occur more than one time inside the selector".

(** Strictly increasing ranks, above [from]: distinct kinds in an order
    consistent with the canonical one. *)
Fixpoint ascending (from : nat) (kinds : list kind) : bool :=
  match kinds with
  | [] => true
  | k :: rest => Nat.ltb from (rank k) && ascending (rank k) rest
  end.

Definition canonical (kinds : list kind) : bool := ascending 0 kinds.

(** Chaining fragment methods, each on the object the previous one
    returned. *)
Fixpoint chain (this : loc) (fragments : list (kind * string)) : M loc :=
  match fragments with
  | [] => ret this
  | (k, value) :: rest => obj <- add k this value ;; chain obj rest
  end.

Definition rendered_all (fragments : list (kind * string)) : string :=
  foldr (fun f acc => rendered f.1 f.2 +:+ acc) "" fragments.

(** Joining with single spaces. *)
Definition join (parts : list string) : string := String.concat " " parts.

(** The text an argument of [combine] stands for: a token is its own text,
    a selector object the text it holds. *)
Definition text (h : heap) (a : arg) : option string :=
  match a with
  | Token s => Some s
  | Selector o =>
      match objects h !! o with
      | Some (Object (Some t) _) => Some t
      | _ => None
      end
  end.

Fixpoint texts (h : heap) (args : list arg) : option (list string) :=
  match args with
  | [] => Some []
  | a :: rest =>
      match text h a, texts h rest with
      | Some t, Some ts => Some (t :: ts)
      | _, _ => None
      end
  end.

(** The selector objects among the arguments. *)
Fixpoint selectors (args : list arg) : list loc :=
  match args with
  | [] => []
  | Selector o :: rest => o :: selectors rest
  | Token _ :: rest => selectors rest
  end.

(** Rendering the arguments one after the other, in call order. *)
Fixpoint renders (args : list arg) : M (list string) :=
  match args with
  | [] => ret []
  | a :: rest => t <- to_string a ;; ts <- renders rest ;; ret (t :: ts)
  end.

(** The heap a successful fragment method leaves: [this] is reset and owns
    a fresh empty array, the new object is the last one and holds the text
    and the array [this] had. *)
Definition fragment_heap (h : heap) (this : loc) (t : string) (r : loc)
    (ks : list string) (kind : string) (pieces : list string) : heap :=
  Heap (<[this := Object (Some "") (Some (length (arrays h)))]> (objects h)
          ++ [Object (Some (t +:+ concat_pieces pieces)) (Some r)])
       (<[r := ks ++ [kind]]> (arrays h) ++ [[]]).

(** [cssSelectorBuilder.combine(cssSelectorBuilder.combine(a, t1, b), '~',
    cssSelectorBuilder.combine(c, t2, d)).stringify()], the arguments
    evaluated from left to right. *)
Definition nested_combine (a b c d : loc) (t1 t2 : string) : M string :=
  x <- combine cssSelectorBuilder [Selector a; Token t1; Selector b] ;;
  y <- combine cssSelectorBuilder [Selector c; Token t2; Selector d] ;;
  z <- combine cssSelectorBuilder [Selector x; Token "~"; Selector y] ;;
  stringify z.

(** C1 as the specification states it: a successful fragment method leaves
    the text and the kind history of its receiver as they were. *)
Definition receiver_unchanged : Prop :=
  forall h s t ks k value obj h',
    view h s = Some (t, ks) ->
    add k s value h = Normal obj h' ->
    view h' s = Some (t, ks).

(** C5 as the specification states it: a second element, id or
    pseudo-element throws the error with the quoted message. *)
Definition duplicate_throws_quoted : Prop :=
  forall k h s t ks value,
    singular k = true ->
    view h s = Some (t, ks) ->
    includes ks (tag k) = true ->
    add k s value h = Throw quoted_duplicate_message h.

End Spec.

Import Spec.

(** ** Heaps of the examples *)

Module Examples.

(** After [cssSelectorBuilder.element('div')]. *)
Definition built_div : heap :=
  Heap [Object (Some "") (Some 1); Object (Some "div") (Some 0)]
       [["element"]; []].

(** After [cssSelectorBuilder.id('main')]. *)
Definition built_main : heap :=
  Heap [Object (Some "") (Some 1); Object (Some "#main") (Some 0)]
       [["id"]; []].

(** After [cssSelectorBuilder.class('container')]. *)
Definition built_container : heap :=
  Heap [Object (Some "") (Some 1); Object (Some ".container") (Some 0)]
       [["class"]; []].

(** After [cssSelectorBuilder.pseudoClass('focus')]. *)
Definition built_focus : heap :=
  Heap [Object (Some "") (Some 1); Object (Some ":focus") (Some 0)]
       [["pseudoClass"]; []].

(** After [cssSelectorBuilder.pseudoElement('after')]. *)
Definition built_after : heap :=
  Heap [Object (Some "") (Some 1); Object (Some "::after") (Some 0)]
       [["pseudoElement"]; []].

(** After [cssSelectorBuilder.element('div')] and then
    [cssSelectorBuilder.element('table')]. *)
Definition built_div_table : heap :=
  Heap [Object (Some "") (Some 2); Object (Some "div") (Some 0);
        Object (Some "table") (Some 1)]
       [["element"]; ["element"]; []].

(** After [cssSelectorBuilder.element] of ['a'], ['b'], ['c'] and ['d']. *)
Definition built_four : heap :=
  Heap [Object (Some "") (Some 4); Object (Some "a") (Some 0);
        Object (Some "b") (Some 1); Object (Some "c") (Some 2);
        Object (Some "d") (Some 3)]
       [["element"]; ["element"]; ["element"]; ["element"]; []].

End Examples.

Import Examples.

(** ** getJSON and fromJSON *)

Module Json.

(** The values [JSON.parse] returns.  An object is the list of its own
    properties, in the order [Object.keys] lists them; numbers are kept to
    the integers. *)
#[warnings="-register-all"]
Inductive value :=
| VNull
| VBool (b : bool)
| VNum (n : Z)
| VStr (s : string)
| VArr (items : list value)
| VObj (props : list (string * value)).

(** A property found on a prototype: a data property with its [writable]
    attribute, or an accessor with its [set] function, if it has one.  A
    setter runs with the receiver as [this]; it is modelled by what it does
    to the own properties of the receiver. *)
Inductive property :=
| Data (writable : bool)
| Accessor (set : option (gmap string value -> value -> gmap string value)).

(** A prototype chain: [null], [Object.prototype], an ordinary object with
    its own properties and its parent, or an object or array that
    [JSON.parse] returned (all its own and inherited properties are writable
    data properties, up to [Object.prototype]). *)
Inductive prototype :=
| Null
| Object_prototype
| Ordinary (props : list (string * property)) (parent : prototype)
| Parsed (v : value).

(** The object [fromJSON] builds: its prototype and its own enumerable
    properties. *)
Record instance := Instance {
  proto : prototype;
  own : gmap string value
}.

(** The first property named [key]. *)
Fixpoint assoc {A} (key : string) (props : list (string * A)) : option A :=
  match props with
  | [] => None
  | (k, a) :: rest => if String.eqb key k then Some a else assoc key rest
  end.

(** What the assignment [ans[key] = v] does when [ans] has no own property
    [key] and the prototype chain is consulted. *)
Inductive disposition :=
| Creates
| Ignored
| Calls (set : gmap string value -> value -> gmap string value)
| Sets_prototype.

(** [Object.prototype]: the accessor [__proto__], and writable data
    properties otherwise. *)
Definition through_Object_prototype (key : string) : disposition :=
  if String.eqb key "__proto__" then Sets_prototype else Creates.

(** The walk up the chain: a writable data property or no property at all
    lets the assignment create the own property; a read-only data property
    or an accessor without setter makes it fail, silently outside strict
    mode; an accessor with a setter is called instead. *)
Fixpoint inherited (p : prototype) (key : string) : disposition :=
  match p with
  | Null => Creates
  | Object_prototype => through_Object_prototype key
  | Ordinary props parent =>
      match assoc key props with
      | Some (Data true) => Creates
      | Some (Data false) => Ignored
      | Some (Accessor (Some set)) => Calls set
      | Some (Accessor None) => Ignored
      | None => inherited parent key
      end
  | Parsed (VObj props) =>
      match assoc key props with
      | Some _ => Creates
      | None => through_Object_prototype key
      end
  | Parsed _ => through_Object_prototype key
  end.

Definition creates (d : disposition) : bool :=
  match d with
  | Creates => true
  | _ => false
  end.

(** [ans[key] = v].  The setter of [__proto__] replaces the prototype when
    [v] is an object or [null] and does nothing otherwise. *)
Definition assign (ans : instance) (key : string) (v : value) : instance :=
  match own ans !! key with
  | Some _ => Instance (proto ans) (<[key := v]> (own ans))
  | None =>
      match inherited (proto ans) key with
      | Creates => Instance (proto ans) (<[key := v]> (own ans))
      | Ignored => ans
      | Calls set => Instance (proto ans) (set (own ans) v)
      | Sets_prototype =>
          match v with
          | VObj _ | VArr _ => Instance (Parsed v) (own ans)
          | VNull => Instance Null (own ans)
          | _ => ans
          end
      end
  end.

(** The own enumerable properties of a value; [None] where [Object.keys]
    throws. *)
Definition own_entries (input : value) : option (list (string * value)) :=
  match input with
  | VObj props => Some props
  | VArr items => Some (imap (fun i v => (pretty i, v)) items)
  | VStr s =>
      Some (imap (fun i c => (pretty i, VStr (String c ""))) (list_ascii_of_string s))
  | VNum _ | VBool _ => Some []
  | VNull => None
  end.

Definition Object_keys (input : value) : option (list string) :=
  option_map (map fst) (own_entries input).

(** [input[key]] *)
Definition get (input : value) (key : string) : option value :=
  match own_entries input with
  | Some entries => assoc key entries
  | None => None
  end.

(** One round of the loop: [ans[keys[i]] = input[keys[i]]]; every key that
    [Object.keys] lists is an own property, so the read finds a value. *)
Definition copy (input : value) (ans : instance) (key : string) : instance :=
  match get input key with
  | Some v => assign ans key v
  | None => ans
  end.

Section Platform.

(** [JSON.stringify] and [JSON.parse] belong to the platform; [None] is a
    thrown [SyntaxError]. *)
Variable JSON_stringify : value -> string.
Variable JSON_parse : string -> option value.

Definition getJSON (obj : value) : string := JSON_stringify obj.

(** [None] is a thrown error: the [SyntaxError] of [JSON.parse] or the
    [TypeError] of [Object.keys(null)]. *)
Definition fromJSON (proto : prototype) (json : string) : option instance :=
  match JSON_parse json with
  | None => None
  | Some input =>
      match Object_keys input with
      | None => None
      | Some keys => Some (foldl (copy input) (Instance proto ∅) keys)
      end
  end.

End Platform.

(** C9 as the specification states it: whatever the prototype, the round
    trip returns the keys and values of a representable object, under that
    prototype. *)
Definition round_trip_under_every_prototype : Prop :=
  forall (JSON_stringify : value -> string) (JSON_parse : string -> option value)
         (P : prototype) (props : list (string * value)),
    JSON_parse (JSON_stringify (VObj props)) = Some (VObj props) ->
    fromJSON JSON_parse P (getJSON JSON_stringify (VObj props))
    = Some (Instance P (list_to_map props)).

(** A prototype with one method, as [Circle.prototype] of the example in
    the source. *)
Definition Circle_prototype : prototype :=
  Ordinary [("getArea", Data true)] Object_prototype.

End Json.

Import Json.

(** ** A JSON codec

    An implementation of [JSON.stringify] and [JSON.parse] on texts without
    white space, escapes, fractions and exponents, with which the platform
    functions of [fromJSON] are instantiated in the examples. *)

Module Codec.

Definition quote_mark : ascii := ascii_of_nat 34.

Definition backslash : ascii := ascii_of_nat 92.

Definition quoted (s : string) : string :=
  String quote_mark (s +:+ String quote_mark "").

Definition commas (parts : list string) : string := String.concat "," parts.

Fixpoint stringify (v : value) : string :=
  match v with
  | VNull => "null"
  | VBool b => if b then "true" else "false"
  | VNum n => pretty n
  | VStr s => quoted s
  | VArr items => "[" +:+ commas (map stringify items) +:+ "]"
  | VObj props =>
      "{" +:+ commas (map (fun kv => quoted kv.1 +:+ ":" +:+ stringify kv.2) props) +:+ "}"
  end.

(** [strip p s]: what follows the prefix [p] of [s]. *)
Fixpoint strip (p s : string) : option string :=
  match p, s with
  | EmptyString, _ => Some s
  | String a p', String b s' => if Ascii.eqb a b then strip p' s' else None
  | _, _ => None
  end.

Definition is_digit (c : ascii) : bool :=
  Nat.leb 48 (nat_of_ascii c) && Nat.leb (nat_of_ascii c) 57.

Definition starts_with_digit (s : string) : bool :=
  match s with
  | String c _ => is_digit c
  | EmptyString => false
  end.

Fixpoint digits (s : string) (acc : Z) : Z * string :=
  match s with
  | String c s' =>
      if is_digit c
      then digits s' (10 * acc + Z.of_nat (nat_of_ascii c - 48))%Z
      else (acc, s)
  | EmptyString => (acc, s)
  end.

(** The characters up to the closing quote, and what follows it. *)
Fixpoint until_quote (s : string) : option (string * string) :=
  match s with
  | EmptyString => None
  | String c s' =>
      if Ascii.eqb c quote_mark then Some ("", s')
      else if Ascii.eqb c backslash then None
      else match until_quote s' with
           | Some (body, rest) => Some (String c body, rest)
           | None => None
           end
  end.

Definition parse_string (s : string) : option (string * string) :=
  match s with
  | String c rest => if Ascii.eqb c quote_mark then until_quote rest else None
  | EmptyString => None
  end.

Definition parse_number (s : string) : option (value * string) :=
  match strip "-" s with
  | Some rest =>
      if starts_with_digit rest
      then let (n, rest') := digits rest 0 in Some (VNum (- n), rest')
      else None
  | None =>
      if starts_with_digit s
      then let (n, rest') := digits s 0 in Some (VNum n, rest')
      else None
  end.

Fixpoint parse_value (fuel : nat) (s : string) : option (value * string) :=
  match fuel with
  | 0 => None
  | S fuel =>
      match strip "null" s, strip "true" s, strip "false" s with
      | Some rest, _, _ => Some (VNull, rest)
      | _, Some rest, _ => Some (VBool true, rest)
      | _, _, Some rest => Some (VBool false, rest)
      | _, _, _ =>
          match parse_string s, strip "[" s, strip "{" s with
          | Some (body, rest), _, _ => Some (VStr body, rest)
          | _, Some rest, _ =>
              match strip "]" rest with
              | Some rest' => Some (VArr [], rest')
              | None =>
                  match parse_items fuel rest with
                  | Some (items, rest') => Some (VArr items, rest')
                  | None => None
                  end
              end
          | _, _, Some rest =>
              match strip "}" rest with
              | Some rest' => Some (VObj [], rest')
              | None =>
                  match parse_members fuel rest with
                  | Some (props, rest') => Some (VObj props, rest')
                  | None => None
                  end
              end
          | _, _, _ => parse_number s
          end
      end
  end
with parse_items (fuel : nat) (s : string) : option (list value * string) :=
  match fuel with
  | 0 => None
  | S fuel =>
      match parse_value fuel s with
      | Some (v, rest) =>
          match strip "," rest, strip "]" rest with
          | Some rest', _ =>
              match parse_items fuel rest' with
              | Some (vs, rest'') => Some (v :: vs, rest'')
              | None => None
              end
          | _, Some rest' => Some ([v], rest')
          | _, _ => None
          end
      | None => None
      end
  end
with parse_members (fuel : nat) (s : string) : option (list (string * value) * string) :=
  match fuel with
  | 0 => None
  | S fuel =>
      match parse_string s with
      | Some (key, rest) =>
          match strip ":" rest with
          | Some rest1 =>
              match parse_value fuel rest1 with
              | Some (v, rest2) =>
                  match strip "," rest2, strip "}" rest2 with
                  | Some rest3, _ =>
                      match parse_members fuel rest3 with
                      | Some (props, rest4) => Some ((key, v) :: props, rest4)
                      | None => None
                      end
                  | _, Some rest3 => Some ([(key, v)], rest3)
                  | _, _ => None
                  end
              | None => None
              end
          | None => None
          end
      | None => None
      end
  end.

(** The whole text must be one value; the fuel is the length of the text,
    and one more. *)
Definition parse (s : string) : option value :=
  match parse_value (S (String.length s)) s with
  | Some (v, EmptyString) => Some v
  | _ => None
  end.

End Codec.

Example codec_round_trip :
  Codec.parse (Codec.stringify
    (VObj [("__proto__", VObj [("x", VNum 1)]);
           ("a", VArr [VNull; VBool true; VStr "hi"; VNum (-12)])]))
  = Some (VObj [("__proto__", VObj [("x", VNum 1)]);
                ("a", VArr [VNull; VBool true; VStr "hi"; VNum (-12)])]).
Proof. vm_compute. reflexivity. Qed.

Example fromJSON_Circle :
  fromJSON Codec.parse Circle_prototype (getJSON Codec.stringify (VObj [("radius", VNum 10)]))
  = Some (Instance Circle_prototype {[ "radius" := VNum 10 ]}).
Proof. vm_compute. reflexivity. Qed.

(** ** Heaps the methods build, and longer programs *)

Module Reach.

(** The shape every heap built by the methods has: each object owns its
    text and a history array that the heap holds, and no two objects share
    an array. *)
Definition wf (h : heap) : Prop :=
  Forall (fun s => is_Some (view h s)) (seq 0 (length (objects h)))
  /\ NoDup (own_order <$> objects h).

(** A kind that [validate] lets follow a history whose highest rank is
    [from]: a later kind, or the same kind again unless it is element, id or
    pseudo-element. *)
Definition follows (from : nat) (k : kind) : bool :=
  Nat.ltb from (rank k) || (Nat.eqb from (rank k) && negb (singular k)).

Fixpoint admissible_from (from : nat) (kinds : list kind) : bool :=
  match kinds with
  | [] => true
  | k :: rest => follows from k && admissible_from (rank k) rest
  end.

(** Kinds in non-decreasing canonical order, with element, id and
    pseudo-element at most once. *)
Definition admissible (kinds : list kind) : bool := admissible_from 0 kinds.

(** The strings that [validate] has a case for. *)
Definition known_kinds : list string :=
  ["element"; "id"; "class"; "attr"; "pseudoClass"; "pseudoElement"].

(** [cssSelectorBuilder.combine(a1, t1, cssSelectorBuilder.combine(a2, t2,
    ... last))]: every nested call is the last argument of the enclosing
    one, so it runs before it. *)
Fixpoint nested_right (ops : list (loc * string)) (last : loc) : M loc :=
  match ops with
  | [] => ret last
  | (a, tok) :: rest =>
      inner <- nested_right rest last ;;
      combine cssSelectorBuilder [Selector a; Token tok; Selector inner]
  end.

(** The same operands and tokens as one flat argument list. *)
Fixpoint flattened (ops : list (loc * string)) (last : loc) : list arg :=
  match ops with
  | [] => [Selector last]
  | (a, tok) :: rest => Selector a :: Token tok :: flattened rest last
  end.

(** The heap [stringify] and [toString] leave: the instance is emptied and
    owns a fresh empty array. *)
Definition rendered_heap (h : heap) (s : loc) : heap :=
  Heap (<[s := Object (Some "") (Some (length (arrays h)))]> (objects h))
       (arrays h ++ [[]]).

(** The heap [this.line = text] leaves. *)
Definition line_heap (h : heap) (this : loc) (text : string) (r : option loc) : heap :=
  Heap (<[this := Object (Some text) r]> (objects h)) (arrays h).


(** An assignment that runs no setter: it creates the own property or is
    dropped. *)
Definition passive (d : disposition) : bool :=
  match d with
  | Creates | Ignored => true
  | _ => false
  end.

(** The entries of an array: its indices in decimal, with its items. *)
Definition indexed (items : list value) : list (string * value) :=
  imap (fun i v => (pretty i, v)) items.

End Reach.

Import Reach.

(** ** The examples of the source's documentation *)

(** The heaps of the examples are the ones the methods build from the
    module as loaded. *)
Example built_heaps :
  element cssSelectorBuilder "div" init = Normal 1 built_div
  /\ id cssSelectorBuilder "main" init = Normal 1 built_main
  /\ class cssSelectorBuilder "container" init = Normal 1 built_container
  /\ pseudoClass cssSelectorBuilder "focus" init = Normal 1 built_focus
  /\ pseudoElement cssSelectorBuilder "after" init = Normal 1 built_after
  /\ element cssSelectorBuilder "table" built_div = Normal 2 built_div_table
  /\ (a <- element cssSelectorBuilder "a" ;; b <- element cssSelectorBuilder "b" ;;
      c <- element cssSelectorBuilder "c" ;; element cssSelectorBuilder "d") init
     = Normal 4 built_four.
Proof. repeat split. Qed.

(** [builder.id('main').class('container').class('editable').stringify()] *)
Example doc_chain_of_classes :
  exists h,
    (a <- id cssSelectorBuilder "main" ;; b <- class a "container" ;;
     c <- class b "editable" ;; stringify c) init
    = Normal "#main.container.editable" h.
Proof. eexists. vm_compute. reflexivity. Qed.

(** [builder.element('a').attr('href$=".png"').pseudoClass('focus').stringify()] *)
Example doc_attribute :
  exists h,
    (a <- element cssSelectorBuilder "a" ;;
     b <- attr a ("href$=" +:+ Codec.quoted ".png") ;;
     c <- pseudoClass b "focus" ;; stringify c) init
    = Normal ("a[href$=" +:+ Codec.quoted ".png" +:+ "]:focus") h.
Proof. eexists. vm_compute. reflexivity. Qed.

(** The nested [combine] of the documentation, each nested call being the
    last argument of the enclosing one; arguments are evaluated from left to
    right. *)
Example doc_nested_combine :
  exists h,
    (d1 <- element cssSelectorBuilder "div" ;; d2 <- id d1 "main" ;;
     d3 <- class d2 "container" ;; x <- class d3 "draggable" ;;
     t1 <- element cssSelectorBuilder "table" ;; y <- id t1 "data" ;;
     r1 <- element cssSelectorBuilder "tr" ;; z <- pseudoClass r1 "nth-of-type(even)" ;;
     c1 <- element cssSelectorBuilder "td" ;; w <- pseudoClass c1 "nth-of-type(even)" ;;
     inner <- combine cssSelectorBuilder [Selector z; Token " "; Selector w] ;;
     middle <- combine cssSelectorBuilder [Selector y; Token "~"; Selector inner] ;;
     outer <- combine cssSelectorBuilder [Selector x; Token "+"; Selector middle] ;;
     stringify outer) init
    = Normal "div#main.container.draggable + table#data ~ tr:nth-of-type(even)   td:nth-of-type(even)" h.
Proof. eexists. vm_compute. reflexivity. Qed.

(** ** Proof tools *)

Ltac sizes := repeat (rewrite length_insert || rewrite length_app); simpl; lia.

Ltac lookups :=
  simpl;
  repeat first
    [ rewrite list_lookup_insert_eq by sizes
    | rewrite list_lookup_insert_ne by lia
    | rewrite lookup_app_l by sizes
    | rewrite lookup_app_r by sizes
    | rewrite length_insert
    | rewrite Nat.sub_diag ];
  simpl; try reflexivity; try eassumption.

(** Membership goals among pairwise distinct locations. *)
Ltac distinct :=
  simpl; repeat (apply not_elem_of_cons; split);
  try apply not_elem_of_nil; congruence.

(** ** Strings *)

Lemma append_cons (x : ascii) (a b : string) :
  String x a +:+ b = String x (a +:+ b).
Proof. reflexivity. Qed.

Lemma append_assoc (a b c : string) : (a +:+ b) +:+ c = a +:+ (b +:+ c).
Proof.
  induction a as [|x a IH]; [reflexivity|].
  by rewrite !append_cons, IH.
Qed.

Lemma append_nil_r (a : string) : a +:+ "" = a.
Proof.
  induction a as [|x a IH]; [reflexivity|].
  by rewrite append_cons, IH.
Qed.

Lemma join_cons t t' ts : join (t :: t' :: ts) = t +:+ " " +:+ join (t' :: ts).
Proof. reflexivity. Qed.

(** ** Running the primitives *)

Lemma bind_normal {A B} (m : M A) (k : A -> M B) h a h' :
  m h = Normal a h' -> bind m k h = k a h'.
Proof. unfold bind. by intros ->. Qed.

Lemma bind_throw {A B} (m : M A) (k : A -> M B) h msg h' :
  m h = Throw msg h' -> bind m k h = Throw msg h'.
Proof. unfold bind. by intros ->. Qed.

Lemma bind_ret {A B} (a : A) (k : A -> M B) h : bind (ret a) k h = k a h.
Proof. reflexivity. Qed.

Lemma bind_assoc {A B C} (m : M A) (k : A -> M B) (k' : B -> M C) h :
  bind (bind m k) k' h = bind m (fun a => bind (k a) k') h.
Proof. unfold bind. by destruct (m h). Qed.

(** One step of a method body: run the primitive, solve its lookup. *)
Ltac step lem :=
  erewrite bind_normal; [| eapply lem; lookups ]; simpl.

Lemma get_line_run h this t o :
  objects h !! this = Some (Object (Some t) o) -> get_line this h = Normal t h.
Proof. intros H. unfold get_line, lift, read_line. by rewrite H. Qed.

Lemma get_order_run h this o r :
  objects h !! this = Some (Object o (Some r)) -> get_order this h = Normal r h.
Proof. intros H. unfold get_order, lift, read_order. rewrite H. by destruct o. Qed.

Lemma set_line_run h this o s :
  objects h !! this = Some o ->
  set_line this s h
  = Normal tt (Heap (<[this := Object (Some s) (own_order o)]> (objects h)) (arrays h)).
Proof. intros H. unfold set_line, modify. by rewrite H. Qed.

Lemma set_order_run h this o r :
  objects h !! this = Some o ->
  set_order this r h
  = Normal tt (Heap (<[this := Object (own_line o) (Some r)]> (objects h)) (arrays h)).
Proof. intros H. unfold set_order, modify. by rewrite H. Qed.

Lemma array_contents_run h r ks :
  arrays h !! r = Some ks -> array_contents r h = Normal ks h.
Proof. intros H. unfold array_contents, lift. by rewrite H. Qed.

Lemma array_push_run h r ks x :
  arrays h !! r = Some ks ->
  array_push r x h = Normal tt (Heap (objects h) (<[r := ks ++ [x]]> (arrays h))).
Proof. intros H. unfold array_push, modify. by rewrite H. Qed.

Lemma view_inv h s t ks :
  view h s = Some (t, ks) ->
  exists r, objects h !! s = Some (Object (Some t) (Some r)) /\ arrays h !! r = Some ks.
Proof.
  unfold view. intros H.
  destruct (objects h !! s) as [[[t'|] [r|]]|]; try discriminate.
  destruct (arrays h !! r) as [ks'|] eqn:E; [|discriminate].
  injection H as -> ->. eauto.
Qed.

Lemma view_intro h s t r ks :
  objects h !! s = Some (Object (Some t) (Some r)) ->
  arrays h !! r = Some ks ->
  view h s = Some (t, ks).
Proof. intros H1 H2. unfold view. by rewrite H1, H2. Qed.

(** ** validate against the reference *)

Lemma includes_tag (k : kind) (ks : list kind) :
  includes (map tag ks) (tag k) = has k ks.
Proof.
  induction ks as [|a ks IH]; [reflexivity|].
  unfold includes, has in *. simpl. rewrite IH. f_equal.
  by destruct k, a.
Qed.

Lemma max_rank_above (k : kind) (ks : list kind) :
  Nat.ltb (rank k) (max_rank ks) = existsb (fun k' => Nat.ltb (rank k) (rank k')) ks.
Proof.
  induction ks as [|a ks IH]; simpl.
  - by destruct k.
  - rewrite <- IH.
    destruct (Nat.ltb_spec (rank k) (rank a)), (Nat.ltb_spec (rank k) (max_rank ks));
      simpl; apply Nat.ltb_lt || apply Nat.ltb_ge; lia.
Qed.

(** Which kinds the order check of each kind looks for. *)
Lemma above_has (k : kind) (ks : list kind) :
  existsb (fun k' => Nat.ltb (rank k) (rank k')) ks
  = match k with
    | Element => has PseudoElement ks || has Class ks || has PseudoClass ks
                 || has Attribute ks || has Id ks
    | Id => has PseudoElement ks || has Class ks || has PseudoClass ks
            || has Attribute ks
    | Class => has PseudoElement ks || has Attribute ks || has PseudoClass ks
    | Attribute => has PseudoElement ks || has PseudoClass ks
    | PseudoClass => has PseudoElement ks
    | PseudoElement => false
    end.
Proof.
  induction ks as [|a ks IH]; [by destruct k|].
  simpl. rewrite IH. unfold has. simpl.
  destruct k, a; simpl;
    repeat match goal with
           | |- context [existsb ?f ks] => destruct (existsb f ks)
           end; reflexivity.
Qed.

Lemma validate_checks (k : kind) (ks : list kind) h :
  (validate_once (map tag ks) (tag k) ;;; validate_arranged (map tag ks) (tag k) ;;; ret true) h
  = match validate_reference k ks with
    | None => Normal true h
    | Some f => Throw (message f) h
    end.
Proof.
  unfold validate_reference. rewrite max_rank_above, above_has.
  unfold validate_once, validate_arranged, bind, includes_val, js_or.
  destruct k; simpl;
    change "element" with (tag Element); change "id" with (tag Id);
    change "class" with (tag Class); change "attr" with (tag Attribute);
    change "pseudoClass" with (tag PseudoClass);
    change "pseudoElement" with (tag PseudoElement);
    rewrite ?includes_tag;
    repeat match goal with
           | |- context [has ?x ks] => destruct (has x ks)
           end; reflexivity.
Qed.

Lemma validate_run (k : kind) (ks : list kind) h this o r :
  objects h !! this = Some (Object o (Some r)) ->
  arrays h !! r = Some (map tag ks) ->
  validate this (tag k) h
  = match validate_reference k ks with
    | None => Normal true h
    | Some f => Throw (message f) h
    end.
Proof.
  intros Hthis Harr. unfold validate.
  rewrite (bind_normal _ _ _ _ _ (get_order_run _ _ _ _ Hthis)).
  rewrite (bind_normal _ _ _ _ _ (array_contents_run _ _ _ Harr)).
  apply validate_checks.
Qed.

(** [validate] reads, it never writes: it returns [true] on the heap it
    was given or throws on that heap. *)
Lemma validate_outcome h this o r ks kind :
  objects h !! this = Some (Object o (Some r)) ->
  arrays h !! r = Some ks ->
  validate this kind h = Normal true h
  \/ validate this kind h = Throw duplicate_message h
  \/ validate this kind h = Throw order_message h.
Proof.
  intros Hthis Harr. unfold validate.
  rewrite (bind_normal _ _ _ _ _ (get_order_run _ _ _ _ Hthis)).
  rewrite (bind_normal _ _ _ _ _ (array_contents_run _ _ _ Harr)).
  unfold validate_once, validate_arranged, bind, throw, ret.
  repeat match goal with
         | |- context [if ?b then _ else _] => destruct b
         end; auto.
Qed.

(** The reference's membership test is membership. *)
Lemma has_In k ks : has k ks = true <-> In k ks.
Proof.
  unfold has. rewrite existsb_exists. split.
  - intros (x & Hx & Heq). by destruct k, x.
  - intros Hin. exists k. split; [done|]. by destruct k.
Qed.

(** The maximum rank exceeds [rank k] exactly when a kind after [k] in the
    canonical order is present. *)
Lemma max_rank_exceeds k ks :
  rank k < max_rank ks <-> exists k', In k' ks /\ rank k < rank k'.
Proof.
  rewrite <- Nat.ltb_lt, max_rank_above, existsb_exists.
  split; intros (k' & Hin & Hlt); exists k'; split; try done;
    by apply Nat.ltb_lt.
Qed.

Lemma has_max_rank k ks : has k ks = true -> rank k <= max_rank ks.
Proof.
  induction ks as [|a ks IH]; [discriminate|].
  unfold has in *. simpl. intros [Ha|Hks]%orb_true_iff.
  - apply Nat.eqb_eq in Ha. lia.
  - specialize (IH Hks). lia.
Qed.

Lemma max_rank_snoc ks k : max_rank (ks ++ [k]) = Nat.max (max_rank ks) (rank k).
Proof. induction ks as [|a ks IH]; simpl; [lia|]. rewrite IH. lia. Qed.

Lemma reference_accepts k ks :
  max_rank ks < rank k -> validate_reference k ks = None.
Proof.
  intros Hlt. unfold validate_reference.
  destruct (has k ks) eqn:Hhas.
  - apply has_max_rank in Hhas. lia.
  - rewrite andb_false_r.
    by destruct (Nat.ltb_spec (rank k) (max_rank ks)); [lia|].
Qed.

(** ** Running the methods *)

Lemma append_lines_run h this t o pieces :
  objects h !! this = Some (Object (Some t) o) ->
  append_lines this pieces h
  = Normal tt (Heap (<[this := Object (Some (t +:+ concat_pieces pieces)) o]> (objects h))
                    (arrays h)).
Proof.
  revert h t. induction pieces as [|s pieces IH]; intros h t Hthis; simpl.
  - rewrite append_nil_r, list_insert_id by done. by destruct h.
  - pose proof (lookup_lt_Some _ _ _ Hthis) as Hlt.
    unfold append_line.
    erewrite bind_normal; [| erewrite bind_normal; [| by eapply get_line_run ];
                              by eapply set_line_run ].
    rewrite (IH _ (t +:+ s)) by lookups. simpl.
    by rewrite list_insert_insert_eq, append_assoc.
Qed.

Lemma fragment_normal h this t r ks kind pieces :
  objects h !! this = Some (Object (Some t) (Some r)) ->
  arrays h !! r = Some ks ->
  validate this kind h = Normal true h ->
  fragment this kind pieces h
  = Normal (length (objects h)) (fragment_heap h this t r ks kind pieces).
Proof.
  intros Hthis Harr Hval.
  pose proof (lookup_lt_Some _ _ _ Hthis) as Hlt.
  pose proof (lookup_lt_Some _ _ _ Harr) as Hlr.
  unfold fragment, addProperty.
  step Hval.
  erewrite bind_normal; [| by eapply append_lines_run ].
  rewrite bind_assoc. step get_order_run. step array_push_run.
  unfold Object_create at 1. unfold bind at 1. simpl.
  rewrite length_insert.
  rewrite bind_assoc. step get_line_run. step set_line_run.
  rewrite bind_assoc. step get_order_run. step set_order_run.
  rewrite bind_assoc. unfold new_array at 1. unfold bind at 1. simpl.
  rewrite length_insert.
  step set_order_run. step set_line_run.
  unfold ret, fragment_heap. f_equal. f_equal.
  rewrite !list_insert_insert_eq.
  rewrite (insert_app_r_alt _ _ (length (objects h))) by sizes.
  rewrite length_insert, Nat.sub_diag. simpl.
  rewrite insert_app_l by sizes.
  by rewrite list_insert_insert_eq.
Qed.

Lemma fragment_throw h this kind pieces msg h' :
  validate this kind h = Throw msg h' ->
  fragment this kind pieces h = Throw msg h'.
Proof. intros H. unfold fragment. by apply bind_throw. Qed.

Lemma stringify_run h this t o :
  objects h !! this = Some (Object (Some t) o) ->
  stringify this h
  = Normal t (Heap (<[this := Object (Some "") (Some (length (arrays h)))]> (objects h))
                   (arrays h ++ [[]])).
Proof.
  intros Hthis. pose proof (lookup_lt_Some _ _ _ Hthis) as Hlt.
  unfold stringify.
  step get_line_run. step set_line_run.
  rewrite bind_assoc. unfold new_array at 1. unfold bind at 1. simpl.
  step set_order_run.
  by rewrite list_insert_insert_eq.
Qed.

(** The two rendering methods have the same body. *)
Lemma toString_stringify : toString = stringify.
Proof. reflexivity. Qed.

(** A rendered object is the empty builder again. *)
Lemma stringify_view h this t o :
  objects h !! this = Some (Object (Some t) o) ->
  exists h', stringify this h = Normal t h' /\ view h' this = Some ("", []).
Proof.
  intros Hthis. pose proof (lookup_lt_Some _ _ _ Hthis) as Hlt.
  eexists. split; [by eapply stringify_run|].
  eapply view_intro; [lookups|]; lookups.
Qed.

Section Fragment_heap.

Variables (h : heap) (this : loc) (t : string) (r : loc) (ks : list string).
Variables (kind : string) (pieces : list string).
Hypothesis Hthis : objects h !! this = Some (Object (Some t) (Some r)).
Hypothesis Harr : arrays h !! r = Some ks.

Lemma fragment_heap_this :
  view (fragment_heap h this t r ks kind pieces) this = Some ("", []).
Proof using Hthis Harr.
  pose proof (lookup_lt_Some _ _ _ Hthis) as Hlt.
  pose proof (lookup_lt_Some _ _ _ Harr) as Hlr.
  eapply view_intro; unfold fragment_heap; [lookups|]; lookups.
Qed.

Lemma fragment_heap_new :
  view (fragment_heap h this t r ks kind pieces) (length (objects h))
  = Some (t +:+ concat_pieces pieces, ks ++ [kind]).
Proof using Hthis Harr.
  pose proof (lookup_lt_Some _ _ _ Hthis) as Hlt.
  pose proof (lookup_lt_Some _ _ _ Harr) as Hlr.
  eapply view_intro; unfold fragment_heap; [lookups|]; lookups.
Qed.

Lemma fragment_heap_others s :
  s <> this -> s < length (objects h) ->
  objects (fragment_heap h this t r ks kind pieces) !! s = objects h !! s.
Proof using Hthis.
  intros Hne Hs. unfold fragment_heap. lookups.
Qed.

End Fragment_heap.

Lemma add_fragment k this value :
  add k this value = fragment this (tag k) (pieces k value).
Proof. by destruct k. Qed.

Lemma pieces_rendered k value : concat_pieces (pieces k value) = rendered k value.
Proof. destruct k; simpl; by rewrite ?append_nil_r. Qed.

(** What one call of a fragment method does to a state: it throws on the
    untouched heap, or it succeeds, returns a fresh object with the text and
    history extended, and leaves the receiver empty. *)
Lemma add_cases h s t ks k value :
  view h s = Some (t, ks) ->
  (validate s (tag k) h = Normal true h /\
   exists h', add k s value h = Normal (length (objects h)) h' /\
     view h' s = Some ("", []) /\
     view h' (length (objects h)) = Some (t +:+ rendered k value, ks ++ [tag k]) /\
     (forall s', s' <> s -> s' < length (objects h) ->
                 objects h' !! s' = objects h !! s'))
  \/ (exists msg, validate s (tag k) h = Throw msg h /\
                  add k s value h = Throw msg h).
Proof.
  intros Hview. destruct (view_inv _ _ _ _ Hview) as (r & Hs & Hr).
  rewrite add_fragment.
  destruct (validate_outcome h s _ r ks (tag k) Hs Hr) as [Hv|[Hv|Hv]].
  - left. split; [done|]. eexists. split; [by eapply fragment_normal|].
    rewrite <- pieces_rendered.
    split; [by eapply fragment_heap_this|].
    split; [by eapply fragment_heap_new|].
    intros s' Hne Hlt. by eapply fragment_heap_others.
  - right. eexists. split; [done|]. by apply fragment_throw.
  - right. eexists. split; [done|]. by apply fragment_throw.
Qed.

(** A successful call, read backwards: what the heap after it holds. *)
Lemma add_success h s t ks k value obj h' :
  view h s = Some (t, ks) ->
  add k s value h = Normal obj h' ->
  obj = length (objects h)
  /\ view h' obj = Some (t +:+ rendered k value, ks ++ [tag k])
  /\ view h' s = Some ("", [])
  /\ (forall s', s' <> s -> s' < length (objects h) ->
                 objects h' !! s' = objects h !! s').
Proof.
  intros Hview Hadd.
  destruct (add_cases h s t ks k value Hview)
    as [(_ & h1 & Hrun & Hs & Hobj & Hothers)|(msg & _ & Hrun)];
    rewrite Hrun in Hadd; [|discriminate].
  injection Hadd as <- <-. by repeat split.
Qed.

Lemma validate_view h s t (ks : list kind) k :
  view h s = Some (t, map tag ks) ->
  validate s (tag k) h
  = match validate_reference k ks with
    | None => Normal true h
    | Some f => Throw (message f) h
    end.
Proof.
  intros Hview. destruct (view_inv _ _ _ _ Hview) as (r & Hs & Hr).
  by eapply validate_run.
Qed.

Lemma render_view h s t ks :
  view h s = Some (t, ks) ->
  exists h1, stringify s h = Normal t h1 /\ view h1 s = Some ("", []).
Proof.
  intros Hview. destruct (view_inv _ _ _ _ Hview) as (r & Hs & Hr).
  by eapply stringify_view.
Qed.

(** ** Fragment methods and the state they are invoked on *)

(** C1, counterexample: with [s = cssSelectorBuilder.element('div')], the
    call [s.id('main')] succeeds and leaves [s] with the text [''] and the
    history [[]] in place of ['div'] and [['element']]. *)
Lemma receiver_unchanged_fails : ~ receiver_unchanged.
Proof.
  intros H.
  assert (E0 : element cssSelectorBuilder "div" init = Normal 1 built_div)
    by reflexivity.
  destruct (add Id 1 "main" built_div) as [obj h1| |] eqn:E1; try discriminate.
  specialize (H built_div 1 "div" ["element"] Id "main" obj h1 eq_refl E1).
  vm_compute in E1. injection E1 as <- <-.
  vm_compute in H. discriminate.
Qed.

(** C1, amended: a successful fragment method returns a fresh object that
    carries the receiver's text followed by the rendered fragment and the
    receiver's history followed by the kind; the receiver itself is reset to
    the empty text and the empty history, every other object is untouched;
    so the receiver is unchanged exactly when it was empty before the call,
    as the base builder is. *)
Theorem add_resets_receiver h s t ks k value obj h' :
  view h s = Some (t, ks) ->
  add k s value h = Normal obj h' ->
  obj = length (objects h)
  /\ view h' obj = Some (t +:+ rendered k value, ks ++ [tag k])
  /\ view h' s = Some ("", [])
  /\ (forall s', s' <> s -> s' < length (objects h) ->
                 objects h' !! s' = objects h !! s')
  /\ (view h' s = view h s <-> t = "" /\ ks = []).
Proof.
  intros Hview Hadd.
  destruct (add_success h s t ks k value obj h' Hview Hadd)
    as (Hfresh & Hobj & Hs & Hothers).
  repeat split; try done.
  - rewrite Hs, Hview in H. by injection H.
  - rewrite Hs, Hview in H. by injection H.
  - intros [-> ->]. by rewrite Hs, Hview.
Qed.

Lemma add_resets_receiver_witness :
  view init cssSelectorBuilder = Some ("", [])
  /\ add Element cssSelectorBuilder "div" init = Normal 1 built_div
  /\ view built_div 1 = Some ("div", ["element"])
  /\ view built_div cssSelectorBuilder = view init cssSelectorBuilder.
Proof.
  split; [reflexivity|]. split; [reflexivity|].
  pose proof (add_resets_receiver init cssSelectorBuilder "" [] Element "div" 1
                built_div eq_refl eq_refl) as (_ & Hobj & _ & _ & Hsame).
  split; [exact Hobj | by apply Hsame].
Defined.

(** ** Validation *)

(** The reference, case by case, in the words of the specification. *)
Lemma reference_cases k ks :
  (validate_reference k ks = Some Duplicate <-> singular k = true /\ In k ks)
  /\ (validate_reference k ks = Some Misordered
      <-> ~ (singular k = true /\ In k ks) /\ rank k < max_rank ks)
  /\ (validate_reference k ks = None
      <-> ~ (singular k = true /\ In k ks) /\ ~ rank k < max_rank ks).
Proof.
  unfold validate_reference.
  destruct (singular k && has k ks) eqn:Hdup.
  - apply andb_true_iff in Hdup as [Hs Hhas%has_In].
    repeat split; try done; intros [Hno _]; by destruct Hno.
  - assert (Hno : ~ (singular k = true /\ In k ks)).
    { intros [Hs Hin%has_In]. by rewrite Hs, Hin in Hdup. }
    destruct (Nat.ltb_spec (rank k) (max_rank ks)) as [Hlt|Hge];
      repeat split; try done; try tauto; try lia; intros [_ ?]; lia.
Qed.

(** C4: on a state whose history is [kindsUsed], [validate] throws the
    duplicate error if and only if the kind is element, id or pseudo-element
    and is already in [kindsUsed]; otherwise it throws the order error if
    and only if the maximum canonical rank in [kindsUsed] exceeds the rank of
    the kind; otherwise it succeeds.  That is the two-rule reference,
    duplicate check first; [validate] leaves the heap alone, and every
    fragment method throws what [validate] throws and succeeds when
    [validate] does. *)
Theorem validate_refines_reference h s t (kindsUsed : list kind) k :
  view h s = Some (t, map tag kindsUsed) ->
  let duplicated := singular k = true /\ In k kindsUsed in
  let exceeded := rank k < max_rank kindsUsed in
  (validate s (tag k) h = Throw duplicate_message h <-> duplicated)
  /\ (validate s (tag k) h = Throw order_message h <-> ~ duplicated /\ exceeded)
  /\ (validate s (tag k) h = Normal true h <-> ~ duplicated /\ ~ exceeded)
  /\ validate s (tag k) h
     = match validate_reference k kindsUsed with
       | None => Normal true h
       | Some f => Throw (message f) h
       end
  /\ forall value,
       match validate_reference k kindsUsed with
       | None => exists h', add k s value h = Normal (length (objects h)) h'
       | Some f => add k s value h = Throw (message f) h
       end.
Proof.
  intros Hview duplicated exceeded.
  pose proof (validate_view h s t kindsUsed k Hview) as Hv.
  destruct (reference_cases k kindsUsed) as (Hdup & Hord & Hok).
  fold duplicated exceeded in Hdup, Hord, Hok.
  split; [|split; [|split; [|split; [exact Hv|]]]].
  - rewrite Hv, <- Hdup. destruct (validate_reference k kindsUsed) as [[]|]; by split.
  - rewrite Hv, <- Hord. destruct (validate_reference k kindsUsed) as [[]|]; by split.
  - rewrite Hv, <- Hok. destruct (validate_reference k kindsUsed) as [[]|]; by split.
  - intros value.
    destruct (add_cases h s t _ k value Hview)
      as [(Hvalid & h1 & Hrun & _)|(msg & Hthrow & Hrun)].
    + rewrite Hvalid in Hv.
      destruct (validate_reference k kindsUsed); [discriminate|]. eauto.
    + rewrite Hthrow in Hv.
      destruct (validate_reference k kindsUsed); [|discriminate].
      rewrite Hrun. by injection Hv as ->.
Qed.

Lemma validate_refines_reference_witness :
  view built_container 1 = Some (".container", map tag [Class])
  /\ validate 1 "id" built_container = Throw order_message built_container
  /\ add Id 1 "main" built_container = Throw order_message built_container.
Proof.
  split; [reflexivity|].
  pose proof (validate_refines_reference built_container 1 ".container" [Class] Id
                eq_refl) as (_ & _ & _ & Hv & Hadd).
  split; [exact Hv | exact (Hadd "main")].
Defined.

(** C5, counterexample: [cssSelectorBuilder.element('div').element('p')]
    throws, and the message it carries is not the quoted one: the source has
    "more then one time". *)
Lemma duplicate_throws_quoted_fails : ~ duplicate_throws_quoted.
Proof.
  intros H.
  specialize (H Element built_div 1 "div" ["element"] "p" eq_refl eq_refl eq_refl).
  vm_compute in H. discriminate.
Qed.

(** C5, amended: adding element, id or pseudo-element to a state whose
    history already holds that kind throws the error with the message
    "Element, id and pseudo-element should not occur more then one time
    inside the selector" and changes nothing; so does the second of two
    consecutive additions of such a kind. *)
Theorem duplicate_fragment_throws k :
  singular k = true ->
  (forall h s t ks value,
     view h s = Some (t, ks) ->
     includes ks (tag k) = true ->
     add k s value h
     = Throw "Element, id and pseudo-element should not occur more then one time inside the selector" h)
  /\ (forall h s t ks value obj h' value',
        view h s = Some (t, ks) ->
        add k s value h = Normal obj h' ->
        add k obj value' h'
        = Throw "Element, id and pseudo-element should not occur more then one time inside the selector" h').
Proof.
  intros Hsing.
  assert (Hfirst : forall h s t ks value,
             view h s = Some (t, ks) -> includes ks (tag k) = true ->
             add k s value h = Throw duplicate_message h).
  { intros h s t ks value Hview Hinc.
    destruct (view_inv _ _ _ _ Hview) as (r & Hs & Hr).
    rewrite add_fragment. apply fragment_throw. unfold validate.
    rewrite (bind_normal _ _ _ _ _ (get_order_run _ _ _ _ Hs)).
    rewrite (bind_normal _ _ _ _ _ (array_contents_run _ _ _ Hr)).
    unfold validate_once, bind.
    destruct k; try discriminate; simpl in *; by rewrite Hinc. }
  split; [exact Hfirst|].
  intros h s t ks value obj h' value' Hview Hadd.
  destruct (add_success _ _ _ _ _ _ _ _ Hview Hadd) as (_ & Hobj & _).
  apply (Hfirst _ _ _ _ _ Hobj).
  unfold includes. rewrite existsb_app. simpl.
  by rewrite String.eqb_refl, orb_true_r.
Qed.

Lemma duplicate_fragment_throws_witness :
  add Id cssSelectorBuilder "main" init = Normal 1 built_main
  /\ add Id 1 "other" built_main = Throw duplicate_message built_main.
Proof.
  split; [reflexivity|].
  exact (proj2 (duplicate_fragment_throws Id eq_refl) init cssSelectorBuilder "" []
           "main" 1 built_main "other" eq_refl eq_refl).
Defined.

(** C6: on a state whose history holds a class and no id, adding an id
    throws the order error; on a state whose history holds a pseudo-class,
    adding an attribute throws it; the message is the one quoted, and the
    heap is left as it was. *)
Theorem misordered_fragment_throws h s t ks value :
  view h s = Some (t, ks) ->
  (includes ks "class" = true -> includes ks "id" = false ->
   id s value h
   = Throw "Selector parts should be arranged in the following order: element, id, class, attribute, pseudo-class, pseudo-element" h)
  /\ (includes ks "pseudoClass" = true ->
      attr s value h
      = Throw "Selector parts should be arranged in the following order: element, id, class, attribute, pseudo-class, pseudo-element" h).
Proof.
  intros Hview. destruct (view_inv _ _ _ _ Hview) as (r & Hs & Hr).
  split.
  - intros Hclass Hid. apply fragment_throw. unfold validate.
    rewrite (bind_normal _ _ _ _ _ (get_order_run _ _ _ _ Hs)).
    rewrite (bind_normal _ _ _ _ _ (array_contents_run _ _ _ Hr)).
    unfold validate_once, validate_arranged, bind. simpl.
    rewrite Hid, Hclass. simpl. by rewrite orb_true_r.
  - intros Hpc. apply fragment_throw. unfold validate.
    rewrite (bind_normal _ _ _ _ _ (get_order_run _ _ _ _ Hs)).
    rewrite (bind_normal _ _ _ _ _ (array_contents_run _ _ _ Hr)).
    unfold validate_once, validate_arranged, bind. simpl.
    rewrite Hpc. by rewrite orb_true_r.
Qed.

Lemma misordered_fragment_throws_witness :
  class cssSelectorBuilder "container" init = Normal 1 built_container
  /\ id 1 "main" built_container = Throw order_message built_container
  /\ pseudoClass cssSelectorBuilder "focus" init = Normal 1 built_focus
  /\ attr 1 "href" built_focus = Throw order_message built_focus.
Proof.
  split; [reflexivity|]. split; [|split; [reflexivity|]].
  - exact (proj1 (misordered_fragment_throws built_container 1 ".container" ["class"]
                    "main" eq_refl) eq_refl eq_refl).
  - exact (proj2 (misordered_fragment_throws built_focus 1 ":focus" ["pseudoClass"]
                    "href" eq_refl) eq_refl).
Defined.

(** ** Rendering *)

(** C8: on every builder state, [stringify] and [toString] return the
    accumulated text and leave the instance with the empty text and the empty
    history, so that a second [stringify] at once returns the empty
    string. *)
Theorem stringify_destructive h s t ks :
  view h s = Some (t, ks) ->
  exists h1,
    stringify s h = Normal t h1
    /\ toString s h = Normal t h1
    /\ view h1 s = Some ("", [])
    /\ exists h2, stringify s h1 = Normal "" h2.
Proof.
  intros Hview.
  destruct (render_view h s t ks Hview) as (h1 & Hrun & Hview1).
  exists h1. repeat split; try done.
  destruct (render_view h1 s "" [] Hview1) as (h2 & Hrun2 & _).
  by exists h2.
Qed.

Lemma stringify_destructive_witness :
  view built_div 1 = Some ("div", ["element"])
  /\ exists h1,
       stringify 1 built_div = Normal "div" h1
       /\ toString 1 built_div = Normal "div" h1
       /\ view h1 1 = Some ("", [])
       /\ exists h2, stringify 1 h1 = Normal "" h2.
Proof.
  split; [reflexivity|].
  exact (stringify_destructive built_div 1 "div" ["element"] eq_refl).
Defined.

(** C10: after [stringify] or [toString] the instance is the empty builder
    again: its text is [''], its history is [[]], and a fragment method of
    any kind then succeeds on it, whatever was added before the render, and
    returns a selector made of that one fragment. *)
Theorem render_resets_instance h s t ks :
  view h s = Some (t, ks) ->
  forall render, render = stringify \/ render = toString ->
  exists h1,
    render s h = Normal t h1
    /\ view h1 s = Some ("", [])
    /\ forall k value, exists h2,
         add k s value h1 = Normal (length (objects h1)) h2
         /\ view h2 (length (objects h1)) = Some (rendered k value, [tag k]).
Proof.
  intros Hview render Hrender.
  destruct (render_view h s t ks Hview) as (h1 & Hrun & Hview1).
  exists h1. split; [by destruct Hrender as [-> | ->]|]. split; [done|].
  intros k value.
  pose proof (validate_view h1 s "" [] k Hview1) as Hv.
  destruct (add_cases h1 s "" [] k value Hview1)
    as [(_ & h2 & Hadd & _ & Hobj & _)|(msg & Hthrow & _)].
  - by exists h2.
  - rewrite Hthrow in Hv. by destruct k.
Qed.

Lemma render_resets_instance_witness :
  view built_after 1 = Some ("::after", ["pseudoElement"])
  /\ exists h1,
       toString 1 built_after = Normal "::after" h1
       /\ view h1 1 = Some ("", [])
       /\ forall k value, exists h2,
            add k 1 value h1 = Normal (length (objects h1)) h2
            /\ view h2 (length (objects h1)) = Some (rendered k value, [tag k]).
Proof.
  split; [reflexivity|].
  exact (render_resets_instance built_after 1 "::after" ["pseudoElement"] eq_refl
           toString (or_intror eq_refl)).
Defined.

(** ** Chains in canonical order *)

Lemma chain_run fragments : forall h s t ks,
  view h s = Some (t, map tag ks) ->
  ascending (max_rank ks) (map fst fragments) = true ->
  exists obj h' ks',
    chain s fragments h = Normal obj h'
    /\ view h' obj = Some (t +:+ rendered_all fragments, ks').
Proof.
  induction fragments as [|[k value] rest IH]; intros h s t ks Hview Hasc; simpl in *.
  - exists s, h, (map tag ks). by rewrite append_nil_r.
  - apply andb_true_iff in Hasc as [Hlt%Nat.ltb_lt Hrest].
    pose proof (validate_view h s t ks k Hview) as Hv.
    rewrite (reference_accepts k ks Hlt) in Hv.
    destruct (add_cases h s t _ k value Hview)
      as [(_ & h1 & Hadd & _ & Hobj & _)|(msg & Hthrow & _)];
      [|rewrite Hthrow in Hv; discriminate].
    change [tag k] with (map tag [k]) in Hobj. rewrite <- map_app in Hobj.
    destruct (IH h1 _ _ _ Hobj) as (obj & h' & ks' & Hchain & Hview').
    { rewrite max_rank_snoc.
      by replace (Nat.max (max_rank ks) (rank k)) with (rank k) by lia. }
    exists obj, h', ks'. split.
    + by rewrite (bind_normal _ _ _ _ _ Hadd).
    + by rewrite Hview', append_assoc.
Qed.

(** C2: from the base builder in its empty state, chaining the fragment
    methods of distinct kinds in canonical order, with any values, throws
    nothing, and rendering the result returns the rendered fragments
    concatenated in call order. *)
Theorem canonical_chain_renders h (fragments : list (kind * string)) :
  view h cssSelectorBuilder = Some ("", []) ->
  canonical (map fst fragments) = true ->
  exists obj h1 h2,
    chain cssSelectorBuilder fragments h = Normal obj h1
    /\ stringify obj h1 = Normal (rendered_all fragments) h2.
Proof.
  intros Hview Hcan.
  destruct (chain_run fragments h cssSelectorBuilder "" [] Hview Hcan)
    as (obj & h1 & ks' & Hchain & Hview').
  destruct (render_view h1 obj _ _ Hview') as (h2 & Hrun & _).
  by exists obj, h1, h2.
Qed.

Lemma canonical_chain_renders_witness :
  exists obj h1 h2,
    chain cssSelectorBuilder
      [(Element, "a"); (Attribute, "href$=.png"); (PseudoClass, "focus")] init
    = Normal obj h1
    /\ stringify obj h1 = Normal "a[href$=.png]:focus" h2.
Proof.
  exact (canonical_chain_renders init
           [(Element, "a"); (Attribute, "href$=.png"); (PseudoClass, "focus")]
           eq_refl eq_refl).
Defined.

(** ** combine *)

Lemma to_string_run a h t :
  text h a = Some t ->
  exists h', to_string a h = Normal t h'
    /\ length (objects h') = length (objects h)
    /\ (forall o, o ∉ selectors [a] -> objects h' !! o = objects h !! o).
Proof.
  destruct a as [o|s]; simpl.
  - destruct (objects h !! o) as [[[t'|] ord]|] eqn:Ho; try discriminate.
    intros [= ->]. pose proof (lookup_lt_Some _ _ _ Ho) as Hlt.
    eexists. split; [rewrite toString_stringify; by eapply stringify_run|].
    split; [simpl; by rewrite length_insert|].
    intros o' Hne. simpl. rewrite list_lookup_insert_ne; [done|].
    intros ->. apply Hne. left.
  - intros [= ->]. exists h. by repeat split.
Qed.

Lemma texts_frame h h' args :
  (forall o, o ∈ selectors args -> objects h' !! o = objects h !! o) ->
  texts h' args = texts h args.
Proof.
  induction args as [|a rest IH]; intros Hsame; [reflexivity|]. simpl.
  rewrite IH.
  - destruct a as [o|s]; [|reflexivity]. simpl.
    rewrite (Hsame o); [done|]. simpl. left.
  - intros o Ho. apply Hsame. destruct a; simpl; [by right|done].
Qed.

(** With pairwise distinct selector objects, the loop appends the texts the
    arguments held when it started. *)
Lemma combine_loop_run args : forall h temp ts,
  NoDup (selectors args) ->
  texts h args = Some ts ->
  exists h', combine_loop args temp h = Normal (temp +:+ join ts) h'
    /\ length (objects h') = length (objects h)
    /\ (forall o, o ∉ selectors args -> objects h' !! o = objects h !! o).
Proof.
  induction args as [|a rest IH]; intros h temp ts Hnd Hts; simpl in *.
  - injection Hts as <-. exists h. by rewrite append_nil_r.
  - destruct (text h a) as [t|] eqn:Ha; [|discriminate].
    destruct (texts h rest) as [ts'|] eqn:Hrest; [|discriminate].
    injection Hts as <-.
    destruct (to_string_run a h t Ha) as (h1 & Hrun & Hlen & Hframe).
    rewrite (bind_normal _ _ _ _ _ Hrun).
    assert (Hnd' : NoDup (selectors rest)
                   /\ forall o, o ∈ selectors rest -> o ∉ selectors [a]).
    { destruct a as [o|s]; simpl in *.
      - apply NoDup_cons in Hnd as [Hnotin Hnd]. split; [done|].
        intros o' Ho' ->%list_elem_of_singleton. done.
      - split; [done|]. intros o' _ Hin. by apply not_elem_of_nil in Hin. }
    destruct Hnd' as [Hnd' Hfresh].
    assert (Hrest1 : texts h1 rest = Some ts').
    { rewrite <- Hrest. apply texts_frame. intros o Ho. by apply Hframe, Hfresh. }
    destruct rest as [|b rest'].
    + simpl in *. injection Hrest as <-. exists h1. by repeat split.
    + destruct (IH h1 ((temp +:+ t) +:+ " ") ts' Hnd' Hrest1)
        as (h' & Hloop & Hlen' & Hframe').
      exists h'. split; [|split].
      * rewrite Hloop. f_equal.
        destruct ts' as [|t' ts'']; [simpl in Hrest1; by repeat case_match|].
        by rewrite join_cons, !append_assoc.
      * congruence.
      * intros o Ho. rewrite Hframe'.
        -- apply Hframe. destruct a as [o'|s]; simpl in *; [|apply not_elem_of_nil].
           intros ->%list_elem_of_singleton. apply Ho. left.
        -- intros Hin. apply Ho. destruct a; simpl; [by right|done].
Qed.

Lemma combine_run h this args ts :
  this < length (objects h) ->
  NoDup (selectors args) ->
  texts h args = Some ts ->
  exists h' r,
    combine this args h = Normal this h'
    /\ objects h' !! this = Some (Object (Some (join ts)) r)
    /\ length (objects h') = length (objects h)
    /\ (forall o, o <> this -> o ∉ selectors args -> objects h' !! o = objects h !! o).
Proof.
  intros Hthis Hnd Hts.
  destruct (combine_loop_run args h "" ts Hnd Hts) as (h1 & Hloop & Hlen & Hframe).
  assert (Hsome : is_Some (objects h1 !! this)) by (apply lookup_lt_is_Some; lia).
  destruct Hsome as [o Ho].
  unfold combine. rewrite (bind_normal _ _ _ _ _ Hloop).
  rewrite (bind_normal _ _ _ _ _ (set_line_run _ _ _ _ Ho)).
  eexists _, _. split; [reflexivity|]. simpl. split; [|split].
  - rewrite list_lookup_insert_eq by lia. reflexivity.
  - by rewrite length_insert.
  - intros o' Hne Hnotin. rewrite list_lookup_insert_ne by done. by apply Hframe.
Qed.

(** Rendering keeps every object in place. *)
Lemma stringify_length this h t h' :
  stringify this h = Normal t h' -> length (objects h') = length (objects h).
Proof.
  unfold stringify, bind, get_line, set_line, set_order, new_array, lift, modify, ret.
  intros H. repeat case_match; simplify_eq; simpl in *.
  by rewrite !length_insert.
Qed.

Lemma renders_length args : forall h ts h',
  renders args h = Normal ts h' -> length (objects h') = length (objects h).
Proof.
  induction args as [|a rest IH]; intros h ts h' H; simpl in H.
  - by injection H as <- <-.
  - unfold bind in H.
    destruct (to_string a h) as [t h1| |] eqn:Ha; try discriminate.
    destruct (renders rest h1) as [ts' h2| |] eqn:Hrest; try discriminate.
    injection H as <- <-. rewrite (IH _ _ _ Hrest).
    destruct a as [o|s]; simpl in Ha.
    + rewrite toString_stringify in Ha. by eapply stringify_length.
    + by injection Ha as <- <-.
Qed.

(** Whatever the arguments, the loop appends what rendering them one after
    the other returns, and leaves the heap those renderings leave. *)
Lemma combine_loop_renders args : forall h temp ts h',
  renders args h = Normal ts h' ->
  combine_loop args temp h = Normal (temp +:+ join ts) h'.
Proof.
  induction args as [|a rest IH]; intros h temp ts h' H; simpl in *.
  - injection H as <- <-. by rewrite append_nil_r.
  - unfold bind in H.
    destruct (to_string a h) as [t h1| |] eqn:Ha; try discriminate.
    destruct (renders rest h1) as [ts' h2| |] eqn:Hrest; try discriminate.
    injection H as <- <-.
    rewrite (bind_normal _ _ _ _ _ Ha).
    destruct rest as [|b rest'].
    + simpl in Hrest. by injection Hrest as <- <-.
    + rewrite (IH _ _ _ _ Hrest). f_equal.
      destruct ts' as [|t' ts''].
      * simpl in Hrest. unfold bind in Hrest. by repeat case_match.
      * by rewrite join_cons, !append_assoc.
Qed.

(** C7: for two distinct selector objects [a] and [b] and any token,
    [combine(a, tok, b)] returns its receiver, and that renders as the text
    of [a], a space, the token, a space, the text of [b]; for any list of
    arguments whose selector objects are pairwise distinct it renders as the
    texts of all arguments, in call order, joined with single spaces; and
    for any list of arguments at all it renders as what rendering the
    arguments one after the other returns, joined with single spaces. *)
Theorem combine_joins :
  (forall h this a b tok ta ka tb kb,
     this < length (objects h) ->
     a <> b ->
     view h a = Some (ta, ka) ->
     view h b = Some (tb, kb) ->
     exists h1 h2,
       combine this [Selector a; Token tok; Selector b] h = Normal this h1
       /\ stringify this h1 = Normal (ta +:+ " " +:+ tok +:+ " " +:+ tb) h2)
  /\ (forall h this args ts,
        this < length (objects h) ->
        NoDup (selectors args) ->
        texts h args = Some ts ->
        exists h1 h2,
          combine this args h = Normal this h1
          /\ stringify this h1 = Normal (join ts) h2)
  /\ (forall h this args ts h',
        this < length (objects h) ->
        renders args h = Normal ts h' ->
        exists h1 h2,
          combine this args h = Normal this h1
          /\ stringify this h1 = Normal (join ts) h2).
Proof.
  assert (Hgen : forall h this args ts,
             this < length (objects h) -> NoDup (selectors args) ->
             texts h args = Some ts ->
             exists h1 h2, combine this args h = Normal this h1
                           /\ stringify this h1 = Normal (join ts) h2).
  { intros h this args ts Hthis Hnd Hts.
    destruct (combine_run h this args ts Hthis Hnd Hts) as (h1 & r & Hrun & Hline & _).
    exists h1. eexists. split; [done|]. by eapply stringify_run. }
  split; [|split; [exact Hgen|]].
  - intros h this a b tok ta ka tb kb Hthis Hne Ha Hb.
    destruct (view_inv _ _ _ _ Ha) as (ra & Hoa & _).
    destruct (view_inv _ _ _ _ Hb) as (rb & Hob & _).
    apply (Hgen h this [Selector a; Token tok; Selector b] [ta; tok; tb] Hthis).
    + simpl. apply NoDup_cons. split; [by intros ->%list_elem_of_singleton|].
      apply NoDup_singleton.
    + simpl. by rewrite Hoa, Hob.
  - intros h this args ts h' Hthis Hrenders.
    pose proof (renders_length _ _ _ _ Hrenders) as Hlen.
    assert (Hsome : is_Some (objects h' !! this)) by (apply lookup_lt_is_Some; lia).
    destruct Hsome as [o Ho]. pose proof (lookup_lt_Some _ _ _ Ho) as Hlt.
    unfold combine.
    rewrite (bind_normal _ _ _ _ _ (combine_loop_renders _ _ "" _ _ Hrenders)).
    rewrite (bind_normal _ _ _ _ _ (set_line_run _ _ _ _ Ho)).
    eexists _, _. split; [reflexivity|].
    eapply stringify_run. lookups.
Qed.

Lemma combine_joins_witness :
  (exists h1 h2,
     combine cssSelectorBuilder [Selector 1; Token "+"; Selector 2] built_div_table
     = Normal cssSelectorBuilder h1
     /\ stringify cssSelectorBuilder h1 = Normal "div + table" h2)
  /\ (exists h1 h2,
        combine cssSelectorBuilder
          [Selector 1; Token ">"; Selector 2; Token "~"; Token "*"] built_div_table
        = Normal cssSelectorBuilder h1
        /\ stringify cssSelectorBuilder h1 = Normal "div > table ~ *" h2)
  /\ (exists h1 h2,
        combine cssSelectorBuilder [Selector 1; Token "+"; Selector 1] built_div
        = Normal cssSelectorBuilder h1
        /\ stringify cssSelectorBuilder h1 = Normal "div + " h2).
Proof.
  split; [|split].
  - exact (proj1 combine_joins built_div_table cssSelectorBuilder 1 2 "+"
             "div" ["element"] "table" ["element"]
             ltac:(compute_done) ltac:(discriminate) eq_refl eq_refl).
  - exact (proj1 (proj2 combine_joins) built_div_table cssSelectorBuilder
             [Selector 1; Token ">"; Selector 2; Token "~"; Token "*"]
             ["div"; ">"; "table"; "~"; "*"]
             ltac:(compute_done) ltac:(compute_done) eq_refl).
  - exact (proj2 (proj2 combine_joins) built_div cssSelectorBuilder
             [Selector 1; Token "+"; Selector 1] ["div"; "+"; ""]
             (Heap [Object (Some "") (Some 1); Object (Some "") (Some 3)]
                   [["element"]; []; []; []])
             ltac:(compute_done) eq_refl).
Defined.

(** C3, what the code does: both inner calls of [combine] write their text
    into the one shared builder and return it, the second overwriting the
    first; the outer call then converts that same object twice, and the
    second conversion finds it already emptied.  The result is the text of
    [c], [t2] and the text of [d] followed by [" ~ "]: the texts of [a] and
    [b] and the token [t1] are lost, and nothing follows the ['~']. *)
Theorem nested_combine_overwrites h a b c d ta tb tc td t1 t2 :
  cssSelectorBuilder < length (objects h) ->
  NoDup [cssSelectorBuilder; a; b; c; d] ->
  texts h [Selector a; Selector b; Selector c; Selector d] = Some [ta; tb; tc; td] ->
  exists h',
    nested_combine a b c d t1 t2 h
    = Normal (tc +:+ " " +:+ t2 +:+ " " +:+ td +:+ " ~ ") h'.
Proof.
  intros Hb Hnd Hts.
  apply NoDup_cons in Hnd as [H0 Hnd]. apply NoDup_cons in Hnd as [H1 Hnd].
  apply NoDup_cons in Hnd as [H2 Hnd]. apply NoDup_cons in Hnd as [H3 _].
  repeat match goal with
         | H : _ ∉ _ :: _ |- _ => apply not_elem_of_cons in H as [? H]
         end.
  assert (Hab : NoDup (selectors [Selector a; Token t1; Selector b])).
  { simpl. apply NoDup_cons. split; [distinct | apply NoDup_singleton]. }
  assert (Hcd : NoDup (selectors [Selector c; Token t2; Selector d])).
  { simpl. apply NoDup_cons. split; [distinct | apply NoDup_singleton]. }
  simpl in Hts.
  destruct (objects h !! a) as [[[ta'|] ?]|] eqn:Ha; try discriminate.
  destruct (objects h !! b) as [[[tb'|] ?]|] eqn:Hb'; try discriminate.
  destruct (objects h !! c) as [[[tc'|] ?]|] eqn:Hc; try discriminate.
  destruct (objects h !! d) as [[[td'|] ?]|] eqn:Hd; try discriminate.
  injection Hts as -> -> -> ->.
  destruct (combine_run h cssSelectorBuilder [Selector a; Token t1; Selector b]
              [ta; t1; tb] Hb Hab)
    as (h1 & r1 & Hrun1 & Hbuilder1 & Hlen1 & Hframe1).
  { simpl. by rewrite Ha, Hb'. }
  assert (Hcd1 : texts h1 [Selector c; Token t2; Selector d] = Some [tc; t2; td]).
  { simpl. rewrite !Hframe1 by distinct. by rewrite Hc, Hd. }
  destruct (combine_run h1 cssSelectorBuilder [Selector c; Token t2; Selector d]
              [tc; t2; td] ltac:(lia) Hcd Hcd1)
    as (h2 & r2 & Hrun2 & Hbuilder2 & Hlen2 & _).
  unfold nested_combine.
  rewrite (bind_normal _ _ _ _ _ Hrun1), (bind_normal _ _ _ _ _ Hrun2).
  pose proof (lookup_lt_Some _ _ _ Hbuilder2) as Hlt.
  unfold combine, combine_loop, to_string.
  rewrite !toString_stringify. eexists.
  rewrite !bind_assoc. step stringify_run.
  rewrite !bind_assoc, bind_ret, bind_assoc. step stringify_run.
  rewrite bind_ret, bind_assoc. step set_line_run.
  rewrite bind_ret. erewrite stringify_run by lookups.
  f_equal. change (join [tc; t2; td]) with (tc +:+ " " +:+ t2 +:+ " " +:+ td).
  change ("" +:+ ?x) with x.
  by rewrite append_nil_r, !append_assoc.
Qed.

Lemma nested_combine_overwrites_witness :
  (a <- element cssSelectorBuilder "a" ;; b <- element cssSelectorBuilder "b" ;;
   c <- element cssSelectorBuilder "c" ;; d <- element cssSelectorBuilder "d" ;;
   ret (a, b, c, d)) init = Normal (1, 2, 3, 4) built_four
  /\ exists h', nested_combine 1 2 3 4 ">" "+" built_four = Normal "c + d ~ " h'.
Proof.
  split; [reflexivity|].
  exact (nested_combine_overwrites built_four 1 2 3 4 "a" "b" "c" "d" ">" "+"
           ltac:(compute_done) ltac:(compute_done) eq_refl).
Defined.

(** ** fromJSON *)

Lemma assoc_list_to_map (props : list (string * value)) key :
  (list_to_map props : gmap string value) !! key = assoc key props.
Proof.
  induction props as [|[k v] props IH]; simpl; [apply lookup_empty|].
  destruct (String.eqb_spec key k) as [->|Hne].
  - apply lookup_insert_eq.
  - rewrite lookup_insert_ne by done. exact IH.
Qed.

Lemma assoc_keys {A} (props : list (string * A)) key :
  key ∈ map fst props -> is_Some (assoc key props).
Proof.
  induction props as [|[k v] props IH]; simpl.
  - intros H. by apply not_elem_of_nil in H.
  - intros H. destruct (String.eqb_spec key k) as [->|Hne]; [eauto|].
    apply IH. apply elem_of_cons in H as [H|H]; [done|exact H].
Qed.

(** An assignment that the chain does not intercept stores the value and
    keeps the prototype. *)
Lemma assign_creates ans key v :
  inherited (proto ans) key = Creates ->
  assign ans key v = Instance (proto ans) (<[key := v]> (own ans)).
Proof. intros H. unfold assign. rewrite H. by destruct (own ans !! key). Qed.

(** The loop of [fromJSON] over keys that the chain does not intercept. *)
Lemma copy_loop props keys : forall ans,
  (forall key, key ∈ keys ->
     inherited (proto ans) key = Creates /\ is_Some (assoc key props)) ->
  proto (foldl (copy (VObj props)) ans keys) = proto ans
  /\ forall key,
       own (foldl (copy (VObj props)) ans keys) !! key
       = if decide (key ∈ keys) then assoc key props else own ans !! key.
Proof.
  induction keys as [|k keys IH]; intros ans Hkeys; cbn [foldl].
  - split; [done|]. intros key. case_decide as Hin; [|done].
    by apply not_elem_of_nil in Hin.
  - destruct (Hkeys k) as [Hcreates [v Hv]]; [left|].
    assert (Hcopy : copy (VObj props) ans k
                    = Instance (proto ans) (<[k := v]> (own ans))).
    { unfold copy, get. simpl. by rewrite Hv, (assign_creates _ _ _ Hcreates). }
    rewrite Hcopy.
    destruct (IH (Instance (proto ans) (<[k := v]> (own ans)))) as [Hproto Hown].
    { intros key Hin. apply Hkeys. by right. }
    split; [exact Hproto|]. intros key. rewrite Hown. cbn [own].
    destruct (decide (key ∈ keys)) as [Hin|Hnotin].
    + rewrite decide_True; [done | by right].
    + destruct (decide (key = k)) as [->|Hne].
      * rewrite decide_True by left. by rewrite lookup_insert_eq.
      * rewrite decide_False.
        -- by rewrite lookup_insert_ne.
        -- intros [?|?]%elem_of_cons; done.
Qed.

(** C9, counterexample: the object that [JSON.parse] returns for the text
    [{"__proto__":{"x":1}}] has the own key [__proto__]; it survives the
    round trip through [JSON.stringify] and [JSON.parse], but the assignment
    [ans['__proto__'] = ...] of [fromJSON] runs the setter inherited from
    [Object.prototype]: the result has no own key, and its prototype is the
    parsed [{"x":1}], not [Circle.prototype]. *)
Lemma round_trip_under_every_prototype_fails : ~ round_trip_under_every_prototype.
Proof.
  intros H.
  specialize (H Codec.stringify Codec.parse Circle_prototype
                [("__proto__", VObj [("x", VNum 1)])] eq_refl).
  assert (Hrun : fromJSON Codec.parse Circle_prototype
                   (getJSON Codec.stringify (VObj [("__proto__", VObj [("x", VNum 1)])]))
                 = Some (Instance (Parsed (VObj [("x", VNum 1)])) ∅))
    by (vm_compute; reflexivity).
  rewrite Hrun in H. discriminate.
Qed.

(** C9, amended: for every JSON-representable plain object and every
    prototype whose chain intercepts the assignment to none of its keys (no
    accessor under that name, as [__proto__] is on [Object.prototype], and
    no read-only data property), [fromJSON(P, getJSON(o))] is an object
    whose own keys and values are those of [o] and whose prototype is
    [P]. *)
Theorem fromJSON_getJSON_round_trip
    (JSON_stringify : value -> string) (JSON_parse : string -> option value)
    (P : prototype) (props : list (string * value)) :
  JSON_parse (JSON_stringify (VObj props)) = Some (VObj props) ->
  forallb (fun key => creates (inherited P key)) (map fst props) = true ->
  fromJSON JSON_parse P (getJSON JSON_stringify (VObj props))
  = Some (Instance P (list_to_map props)).
Proof.
  intros Hrt Hfree. unfold fromJSON, getJSON. rewrite Hrt. simpl.
  rewrite forallb_forall in Hfree.
  destruct (copy_loop props (map fst props) (Instance P ∅)) as [Hproto Hown].
  { intros key Hin. split; [|by apply assoc_keys].
    simpl. specialize (Hfree key). rewrite <- list_elem_of_In in Hfree.
    specialize (Hfree Hin). by destruct (inherited P key). }
  destruct (foldl (copy (VObj props)) (Instance P ∅) (map fst props))
    as [proto' own'] eqn:E.
  simpl in *. subst proto'. do 2 f_equal.
  apply map_eq. intros key. rewrite Hown, assoc_list_to_map.
  destruct (decide (key ∈ map fst props)) as [Hin|Hnotin]; [done|].
  rewrite lookup_empty. symmetry.
  destruct (assoc key props) as [v|] eqn:Hassoc; [|done].
  exfalso. apply Hnotin. clear -Hassoc.
  induction props as [|[k w] props IH]; [discriminate|]. simpl in *.
  destruct (String.eqb_spec key k) as [->|Hne]; [left | right; by apply IH].
Qed.

Lemma fromJSON_getJSON_round_trip_witness :
  Codec.parse (Codec.stringify (VObj [("width", VNum 10); ("height", VNum 20)]))
  = Some (VObj [("width", VNum 10); ("height", VNum 20)])
  /\ fromJSON Codec.parse Circle_prototype
       (getJSON Codec.stringify (VObj [("width", VNum 10); ("height", VNum 20)]))
     = Some (Instance Circle_prototype
               (list_to_map [("width", VNum 10); ("height", VNum 20)])).
Proof.
  split; [vm_compute; reflexivity|].
  exact (fromJSON_getJSON_round_trip Codec.stringify Codec.parse Circle_prototype
           [("width", VNum 10); ("height", VNum 20)] eq_refl eq_refl).
Defined.

(** ** Chains with repeated kinds *)

(** When the highest rank of a history is the rank of [k], the history
    holds [k]. *)
Lemma max_rank_attained k ks : max_rank ks = rank k -> has k ks = true.
Proof.
  induction ks as [|a ks IH]; simpl; [by destruct k|].
  intros Hmax. unfold has, kind_eqb in *. simpl.
  destruct (Nat.eqb_spec (rank k) (rank a)) as [Heq|Hne]; [done|].
  simpl. apply IH. lia.
Qed.

(** The reference accepts exactly the kinds that may follow. *)
Lemma reference_follows k ks :
  validate_reference k ks = None <-> follows (max_rank ks) k = true.
Proof.
  unfold follows.
  destruct (Nat.ltb_spec (max_rank ks) (rank k)) as [Hlt|Hge]; simpl.
  - rewrite reference_accepts by done. done.
  - unfold validate_reference.
    destruct (Nat.eqb_spec (max_rank ks) (rank k)) as [Heq|Hne]; simpl.
    + rewrite (max_rank_attained k ks Heq), andb_true_r.
      destruct (singular k); simpl; [done|].
      by destruct (Nat.ltb_spec (rank k) (max_rank ks)); [lia|].
    + destruct (singular k && has k ks); [done|].
      by destruct (Nat.ltb_spec (rank k) (max_rank ks)); [|lia].
Qed.

(** What a chain does, whatever its kinds: it succeeds when every kind may
    follow the ones before it, and throws at the first that may not. *)
Lemma chain_outcome fragments : forall h s t ks,
  view h s = Some (t, map tag ks) ->
  if admissible_from (max_rank ks) (map fst fragments)
  then exists obj h',
         chain s fragments h = Normal obj h'
         /\ view h' obj
            = Some (t +:+ rendered_all fragments, map tag (ks ++ map fst fragments))
  else exists msg h',
         chain s fragments h = Throw msg h'
         /\ (msg = duplicate_message \/ msg = order_message).
Proof.
  induction fragments as [|[k value] rest IH]; intros h s t ks Hview; simpl.
  - exists s, h. by rewrite append_nil_r, app_nil_r.
  - pose proof (validate_view h s t ks k Hview) as Hv.
    destruct (follows (max_rank ks) k) eqn:Hfollows; simpl.
    + rewrite (proj2 (reference_follows k ks) Hfollows) in Hv.
      destruct (add_cases h s t _ k value Hview)
        as [(_ & h1 & Hadd & _ & Hobj & _)|(msg & Hthrow & _)];
        [|rewrite Hthrow in Hv; discriminate].
      change [tag k] with (map tag [k]) in Hobj. rewrite <- map_app in Hobj.
      specialize (IH h1 _ _ _ Hobj).
      assert (Hmax : max_rank (ks ++ [k]) = rank k).
      { rewrite max_rank_snoc. unfold follows in Hfollows.
        apply orb_true_iff in Hfollows as [Hlt%Nat.ltb_lt|[Heq%Nat.eqb_eq _]%andb_true_iff];
          lia. }
      rewrite Hmax in IH. rewrite (bind_normal _ _ _ _ _ Hadd).
      destruct (admissible_from (rank k) (map fst rest)).
      * destruct IH as (obj & h' & Hchain & Hview').
        exists obj, h'. split; [done|].
        by rewrite Hview', append_assoc, <- app_assoc.
      * exact IH.
    + destruct (validate_reference k ks) as [f|] eqn:Href.
      * destruct (add_cases h s t _ k value Hview)
          as [(Hok & _)|(msg & Hthrow & Hadd)];
          [rewrite Hok in Hv; discriminate|].
        exists msg, h. split; [by rewrite (bind_throw _ _ _ _ _ Hadd)|].
        rewrite Hthrow in Hv. injection Hv as ->. destruct f; auto.
      * apply reference_follows in Href. congruence.
Qed.

(** X1.  On a state with text [t] and history [ks], a chain of fragment
    methods whose kinds are in non-decreasing canonical order, class,
    attribute and pseudo-class repeated at will, element, id and
    pseudo-element at most once, throws nothing; the object it returns holds
    [t] followed by the rendered fragments and the history followed by the
    kinds, both in call order, and renders as that text. *)
Theorem admissible_chain_builds h s t ks (fragments : list (kind * string)) :
  view h s = Some (t, map tag ks) ->
  admissible_from (max_rank ks) (map fst fragments) = true ->
  exists obj h1 h2,
    chain s fragments h = Normal obj h1
    /\ view h1 obj
       = Some (t +:+ rendered_all fragments, map tag (ks ++ map fst fragments))
    /\ stringify obj h1 = Normal (t +:+ rendered_all fragments) h2.
Proof.
  intros Hview Hadm.
  pose proof (chain_outcome fragments h s t ks Hview) as Hout.
  rewrite Hadm in Hout. destruct Hout as (obj & h1 & Hchain & Hview1).
  destruct (render_view h1 obj _ _ Hview1) as (h2 & Hrun & _).
  by exists obj, h1, h2.
Qed.

Lemma admissible_chain_builds_witness :
  exists obj h1 h2,
    chain cssSelectorBuilder
      [(Id, "main"); (Class, "container"); (Class, "editable");
       (Attribute, "lang"); (Attribute, "dir"); (PseudoClass, "hover");
       (PseudoClass, "focus")] init
    = Normal obj h1
    /\ view h1 obj
       = Some ("#main.container.editable[lang][dir]:hover:focus",
               ["id"; "class"; "class"; "attr"; "attr"; "pseudoClass"; "pseudoClass"])
    /\ stringify obj h1
       = Normal "#main.container.editable[lang][dir]:hover:focus" h2.
Proof.
  exact (admissible_chain_builds init cssSelectorBuilder "" []
           [(Id, "main"); (Class, "container"); (Class, "editable");
            (Attribute, "lang"); (Attribute, "dir"); (PseudoClass, "hover");
            (PseudoClass, "focus")] eq_refl eq_refl).
Defined.

(** X2.  A chain of fragment methods succeeds if and only if its kinds are
    admissible after the history of the state it starts on; when they are
    not, it throws the duplicate or the order error. *)
Theorem chain_succeeds_iff_admissible h s t ks (fragments : list (kind * string)) :
  view h s = Some (t, map tag ks) ->
  ((exists obj h', chain s fragments h = Normal obj h')
   <-> admissible_from (max_rank ks) (map fst fragments) = true)
  /\ (admissible_from (max_rank ks) (map fst fragments) = false ->
      exists msg h',
        chain s fragments h = Throw msg h'
        /\ (msg = duplicate_message \/ msg = order_message)).
Proof.
  intros Hview.
  pose proof (chain_outcome fragments h s t ks Hview) as Hout.
  destruct (admissible_from (max_rank ks) (map fst fragments)).
  - destruct Hout as (obj & h' & Hchain & _). split; [|done].
    split; [done|]. intros _. by exists obj, h'.
  - destruct Hout as (msg & h' & Hchain & Hmsg). split; [|by exists msg, h'].
    split; [|done]. intros (obj & h'' & Hnormal). congruence.
Qed.

Lemma chain_succeeds_iff_admissible_witness :
  admissible [Class; Id] = false
  /\ exists msg h',
       chain cssSelectorBuilder [(Class, "container"); (Id, "main")] init = Throw msg h'
       /\ (msg = duplicate_message \/ msg = order_message).
Proof.
  split; [reflexivity|].
  exact (proj2 (chain_succeeds_iff_admissible init cssSelectorBuilder "" []
                  [(Class, "container"); (Id, "main")] eq_refl) eq_refl).
Defined.

(** ** The shape of the heaps the methods build *)

Lemma wf_view h s : wf h -> s < length (objects h) -> is_Some (view h s).
Proof.
  intros [Hviews _] Hs. rewrite Forall_forall in Hviews.
  apply Hviews, elem_of_seq. lia.
Qed.

Lemma wf_intro h :
  (forall s, s < length (objects h) -> is_Some (view h s)) ->
  NoDup (own_order <$> objects h) ->
  wf h.
Proof.
  intros Hviews Hnd. split; [|done].
  apply Forall_forall. intros s Hs%elem_of_seq. apply Hviews. lia.
Qed.

Lemma view_bound h s t ks : view h s = Some (t, ks) -> s < length (objects h).
Proof.
  intros Hview. destruct (view_inv _ _ _ _ Hview) as (r & Hs & _).
  by eapply lookup_lt_Some.
Qed.

(** No two objects hold the same array. *)
Lemma wf_owner h i j ti tj r :
  wf h ->
  objects h !! i = Some (Object ti (Some r)) ->
  objects h !! j = Some (Object tj (Some r)) ->
  i = j.
Proof.
  intros [_ Hnd] Hi Hj.
  eapply (NoDup_lookup _ i j (Some r) Hnd);
    rewrite list_lookup_fmap; [by rewrite Hi | by rewrite Hj].
Qed.

(** The array that an allocation returns belongs to no object yet. *)
Lemma wf_fresh h : wf h -> Some (length (arrays h)) ∉ own_order <$> objects h.
Proof.
  intros Hwf Hin. apply list_elem_of_fmap in Hin as (o & Ho & Hin).
  apply list_elem_of_lookup in Hin as [s Hs].
  destruct (wf_view h s Hwf (lookup_lt_Some _ _ _ Hs)) as [[t ks] Hview].
  destruct (view_inv _ _ _ _ Hview) as (r & Hs' & Hr).
  rewrite Hs in Hs'. injection Hs' as ->. simpl in Ho. injection Ho as <-.
  apply lookup_lt_Some in Hr. lia.
Qed.

(** Replacing one element by a new one and putting the old one last keeps
    a list free of duplicates. *)
Lemma NoDup_handover {A} (l : list A) i x y :
  NoDup l -> l !! i = Some x -> y ∉ l -> NoDup (<[i := y]> l ++ [x]).
Proof.
  intros Hnd Hi Hy.
  destruct (list_elem_of_split_length l i x Hi) as (l1 & l2 & -> & ->).
  rewrite insert_app_r_alt, Nat.sub_diag by lia. simpl.
  assert (Hperm : (l1 ++ y :: l2) ++ [x] ≡ₚ y :: l1 ++ x :: l2) by solve_Permutation.
  rewrite Hperm. by apply NoDup_cons.
Qed.

Lemma fragment_heap_frame h this t r ks kind pieces o :
  wf h ->
  objects h !! this = Some (Object (Some t) (Some r)) ->
  arrays h !! r = Some ks ->
  o <> this -> o < length (objects h) ->
  view (fragment_heap h this t r ks kind pieces) o = view h o.
Proof.
  intros Hwf Hthis Harr Hne Ho.
  destruct (wf_view h o Hwf Ho) as [[to ko] Hview]. rewrite Hview.
  destruct (view_inv _ _ _ _ Hview) as (ro & Hobj & Hro).
  assert (ro <> r) by (intros ->; exact (Hne (wf_owner h o this _ _ r Hwf Hobj Hthis))).
  pose proof (lookup_lt_Some _ _ _ Hro). pose proof (lookup_lt_Some _ _ _ Harr).
  pose proof (lookup_lt_Some _ _ _ Hthis).
  eapply view_intro; unfold fragment_heap; [lookups|]; lookups.
Qed.

Lemma fragment_heap_wf h this t r ks kind pieces :
  wf h ->
  objects h !! this = Some (Object (Some t) (Some r)) ->
  arrays h !! r = Some ks ->
  wf (fragment_heap h this t r ks kind pieces).
Proof.
  intros Hwf Hthis Harr. pose proof (lookup_lt_Some _ _ _ Hthis) as Hlt.
  apply wf_intro.
  - intros s Hs. unfold fragment_heap in Hs. simpl in Hs.
    rewrite length_app, length_insert in Hs. simpl in Hs.
    destruct (decide (s = this)) as [->|Hne].
    { rewrite (fragment_heap_this h this t r ks kind pieces Hthis Harr). eauto. }
    destruct (decide (s = length (objects h))) as [->|Hnew].
    { rewrite (fragment_heap_new h this t r ks kind pieces Hthis Harr). eauto. }
    rewrite fragment_heap_frame by (done || lia). apply wf_view; [done | lia].
  - unfold fragment_heap. simpl. rewrite fmap_app, list_fmap_insert. simpl.
    apply NoDup_handover.
    + apply Hwf.
    + by rewrite list_lookup_fmap, Hthis.
    + by apply wf_fresh.
Qed.

Lemma rendered_heap_this h s t o :
  objects h !! s = Some (Object t o) -> view (rendered_heap h s) s = Some ("", []).
Proof.
  intros Hs. pose proof (lookup_lt_Some _ _ _ Hs).
  eapply view_intro; unfold rendered_heap; [lookups|]; lookups.
Qed.

Lemma rendered_heap_frame h s o :
  is_Some (view h o) -> o <> s -> view (rendered_heap h s) o = view h o.
Proof.
  intros [[to ko] Hview] Hne. rewrite Hview.
  destruct (view_inv _ _ _ _ Hview) as (ro & Hobj & Hro).
  pose proof (lookup_lt_Some _ _ _ Hro). pose proof (lookup_lt_Some _ _ _ Hobj).
  eapply view_intro; unfold rendered_heap; [lookups|]; lookups.
Qed.

Lemma rendered_heap_wf h s :
  wf h -> s < length (objects h) -> wf (rendered_heap h s).
Proof.
  intros Hwf Hs.
  destruct (wf_view h s Hwf Hs) as [[t ks] Hview].
  destruct (view_inv _ _ _ _ Hview) as (r & Hobj & Hr).
  apply wf_intro.
  - intros o Ho. unfold rendered_heap in Ho. simpl in Ho. rewrite length_insert in Ho.
    destruct (decide (o = s)) as [->|Hne].
    + rewrite (rendered_heap_this h s _ _ Hobj). eauto.
    + rewrite rendered_heap_frame by (done || by apply wf_view). by apply wf_view.
  - unfold rendered_heap. simpl. rewrite list_fmap_insert. simpl.
    eapply (NoDup_app (<[s:=Some (length (arrays h))]> (own_order <$> objects h)) [_]).
    apply NoDup_handover.
    + apply Hwf.
    + by rewrite list_lookup_fmap, Hobj.
    + by apply wf_fresh.
Qed.

Lemma line_heap_view h this text t0 r ks :
  objects h !! this = Some (Object t0 (Some r)) ->
  arrays h !! r = Some ks ->
  view (line_heap h this text (Some r)) this = Some (text, ks).
Proof.
  intros Hthis Hr. pose proof (lookup_lt_Some _ _ _ Hthis).
  eapply view_intro; unfold line_heap; [lookups|]; lookups.
Qed.

Lemma line_heap_frame h this text r o :
  o <> this -> view (line_heap h this text r) o = view h o.
Proof.
  intros Hne. unfold view, line_heap. simpl.
  by rewrite list_lookup_insert_ne.
Qed.

Lemma line_heap_wf h this text t0 r :
  wf h -> objects h !! this = Some (Object t0 r) -> wf (line_heap h this text r).
Proof.
  intros Hwf Hthis. pose proof (lookup_lt_Some _ _ _ Hthis) as Hlt.
  destruct (wf_view h this Hwf Hlt) as [[t ks] Hview].
  destruct (view_inv _ _ _ _ Hview) as (r' & Hobj & Hr).
  rewrite Hthis in Hobj. injection Hobj as -> ->.
  apply wf_intro.
  - intros o Ho. unfold line_heap in Ho. simpl in Ho. rewrite length_insert in Ho.
    destruct (decide (o = this)) as [->|Hne].
    + rewrite (line_heap_view h this text _ r' ks Hthis Hr). eauto.
    + rewrite line_heap_frame by done. by apply wf_view.
  - unfold line_heap. simpl. rewrite list_fmap_insert. simpl.
    rewrite list_insert_id; [apply Hwf|]. by rewrite list_lookup_fmap, Hthis.
Qed.

(** A method called on a location that the heap does not hold gets
    nowhere. *)
Lemma stringify_inv h s t h' :
  wf h ->
  stringify s h = Normal t h' ->
  s < length (objects h) /\ h' = rendered_heap h s
  /\ exists ks, view h s = Some (t, ks).
Proof.
  intros Hwf Hrun.
  destruct (objects h !! s) as [o|] eqn:Hs.
  - pose proof (lookup_lt_Some _ _ _ Hs) as Hlt.
    destruct (wf_view h s Hwf Hlt) as [[t' ks] Hview].
    destruct (view_inv _ _ _ _ Hview) as (r & Hobj & Hr).
    rewrite (stringify_run h s t' _ Hobj) in Hrun. injection Hrun as <- <-.
    split; [done|]. split; [done|]. by exists ks.
  - unfold stringify, bind, get_line, lift, read_line in Hrun.
    rewrite Hs in Hrun. discriminate.
Qed.

Lemma add_inv h s k value obj h' :
  wf h ->
  add k s value h = Normal obj h' ->
  exists t r ks,
    objects h !! s = Some (Object (Some t) (Some r))
    /\ arrays h !! r = Some ks
    /\ obj = length (objects h)
    /\ h' = fragment_heap h s t r ks (tag k) (pieces k value).
Proof.
  intros Hwf Hrun. rewrite add_fragment in Hrun.
  destruct (objects h !! s) as [o|] eqn:Hs.
  - pose proof (lookup_lt_Some _ _ _ Hs) as Hlt.
    destruct (wf_view h s Hwf Hlt) as [[t ks] Hview].
    destruct (view_inv _ _ _ _ Hview) as (r & Hobj & Hr).
    exists t, r, ks. split; [congruence|]. split; [done|].
    destruct (validate_outcome h s _ r ks (tag k) Hobj Hr) as [Hv|[Hv|Hv]].
    + rewrite (fragment_normal h s t r ks _ _ Hobj Hr Hv) in Hrun.
      injection Hrun as <- <-. by split.
    + rewrite (fragment_throw _ _ _ _ _ _ Hv) in Hrun. discriminate.
    + rewrite (fragment_throw _ _ _ _ _ _ Hv) in Hrun. discriminate.
  - unfold fragment, validate, bind, get_order, lift, read_order in Hrun.
    rewrite Hs in Hrun. discriminate.
Qed.

(** The loop of [combine] on a well-formed heap: it keeps the shape, it
    leaves every object that is no argument as it was, and it leaves every
    argument empty. *)
Lemma combine_loop_wf args : forall temp h res h',
  wf h ->
  combine_loop args temp h = Normal res h' ->
  wf h'
  /\ length (objects h') = length (objects h)
  /\ (forall o, o ∉ selectors args -> o < length (objects h) -> view h' o = view h o)
  /\ (forall o, o ∈ selectors args -> view h' o = Some ("", [])).
Proof.
  induction args as [|a rest IH]; intros temp h res h' Hwf Hrun; simpl in Hrun.
  - injection Hrun as <- <-. split; [done|]. split; [done|]. split; [done|].
    intros o Ho. by apply not_elem_of_nil in Ho.
  - unfold bind in Hrun.
    destruct (to_string a h) as [t h1| |] eqn:Ha; try discriminate.
    destruct a as [s|tok]; simpl in Ha.
    + rewrite toString_stringify in Ha.
      destruct (stringify_inv h s t h1 Hwf Ha) as (Hs & -> & ks & Hview).
      pose proof (rendered_heap_wf h s Hwf Hs) as Hwf1.
      destruct (IH _ _ _ _ Hwf1 Hrun) as (Hwf' & Hlen & Hframe & Hempty).
      assert (Hlen1 : length (objects (rendered_heap h s)) = length (objects h))
        by (unfold rendered_heap; simpl; by rewrite length_insert).
      destruct (view_inv _ _ _ _ Hview) as (r & Hobj & Hr).
      split; [done|]. split; [congruence|]. split.
      * intros o [Hne Ho]%not_elem_of_cons Hlt.
        rewrite Hframe by (done || lia).
        apply rendered_heap_frame; [by apply wf_view | done].
      * intros o Ho. simpl in Ho.
        destruct (decide (o ∈ selectors rest)) as [Hin|Hnotin]; [by apply Hempty|].
        apply elem_of_cons in Ho as [->|Ho]; [|done].
        rewrite Hframe by (done || lia).
        by eapply rendered_heap_this.
    + injection Ha as <- <-. by eapply IH.
Qed.

Lemma combine_inv h this args res h' :
  wf h ->
  combine this args h = Normal res h' ->
  res = this /\ wf h'
  /\ length (objects h') = length (objects h)
  /\ (forall o, o <> this -> o ∉ selectors args -> o < length (objects h) ->
                view h' o = view h o)
  /\ (forall o, o <> this -> o ∈ selectors args -> view h' o = Some ("", []))
  /\ (forall t0 ks0, this ∉ selectors args -> view h this = Some (t0, ks0) ->
                     exists temp, view h' this = Some (temp, ks0)).
Proof.
  intros Hwf Hrun. unfold combine, bind in Hrun.
  destruct (combine_loop args "" h) as [temp h1| |] eqn:Hloop; try discriminate.
  destruct (combine_loop_wf args "" h temp h1 Hwf Hloop) as (Hwf1 & Hlen & Hframe & Hempty).
  destruct (objects h1 !! this) as [o|] eqn:Hthis.
  - rewrite (set_line_run _ _ _ _ Hthis) in Hrun. injection Hrun as <- <-.
    change (Heap _ _) with (line_heap h1 this temp (own_order o)).
    destruct o as [t0 r]. simpl.
    split; [done|]. split; [by eapply line_heap_wf|].
    split; [unfold line_heap; simpl; by rewrite length_insert|].
    split; [|split].
    + intros o Hne Hnotin Hlt. rewrite line_heap_frame by done. by apply Hframe.
    + intros o Hne Hin. rewrite line_heap_frame by done. by apply Hempty.
    + intros t1 ks0 Hnotin Hview. exists temp.
      rewrite <- Hframe in Hview by (done || by eapply view_bound).
      destruct (view_inv _ _ _ _ Hview) as (r1 & Hobj & Hr1).
      rewrite Hthis in Hobj. injection Hobj as -> ->.
      by eapply line_heap_view.
  - unfold set_line, modify in Hrun. rewrite Hthis in Hrun. discriminate.
Qed.

(** X3.  The module as loaded has the shape [wf], and every method keeps
    it: a fragment method that succeeds, a fragment method that throws
    (which leaves the heap as it was), [stringify], [toString] and
    [combine].  So in every heap the methods build, each object owns its text
    and its history array, and no two objects share an array. *)
Theorem methods_keep_shape :
  wf init
  /\ (forall h k s value obj h', wf h -> add k s value h = Normal obj h' -> wf h')
  /\ (forall h k s value msg h', wf h -> add k s value h = Throw msg h' -> h' = h)
  /\ (forall h render s t h',
        render = stringify \/ render = toString ->
        wf h -> render s h = Normal t h' -> wf h')
  /\ (forall h this args res h', wf h -> combine this args h = Normal res h' -> wf h').
Proof.
  split; [compute_done|]. split; [|split; [|split]].
  - intros h k s value obj h' Hwf Hrun.
    destruct (add_inv h s k value obj h' Hwf Hrun) as (t & r & ks & Hs & Hr & _ & ->).
    by apply fragment_heap_wf.
  - intros h k s value msg h' Hwf Hrun.
    destruct (objects h !! s) as [o|] eqn:Hs.
    + destruct (wf_view h s Hwf (lookup_lt_Some _ _ _ Hs)) as [[t ks] Hview].
      destruct (add_cases h s t ks k value Hview)
        as [(_ & h1 & Hadd & _)|(msg' & _ & Hadd)]; rewrite Hadd in Hrun.
      * discriminate.
      * by injection Hrun as _ <-.
    + rewrite add_fragment in Hrun.
      unfold fragment, validate, bind, get_order, lift, read_order in Hrun.
      rewrite Hs in Hrun. discriminate.
  - intros h render s t h' Hrender Hwf Hrun.
    assert (Hs : stringify s h = Normal t h') by (by destruct Hrender as [-> | ->]).
    destruct (stringify_inv h s t h' Hwf Hs) as (Hlt & -> & _).
    by apply rendered_heap_wf.
  - intros h this args res h' Hwf Hrun.
    by destruct (combine_inv h this args res h' Hwf Hrun) as (_ & Hwf' & _).
Qed.

Lemma methods_keep_shape_witness :
  wf built_div_table
  /\ (exists h', id 1 "main" built_div_table = Normal 3 h' /\ wf h')
  /\ (exists h', toString 2 built_div_table = Normal "table" h' /\ wf h')
  /\ (exists h',
        combine cssSelectorBuilder [Selector 1; Token ">"; Selector 2] built_div_table
        = Normal cssSelectorBuilder h' /\ wf h').
Proof.
  destruct methods_keep_shape as (_ & Hadd & _ & Hrender & Hcombine).
  split; [compute_done|]. split; [|split].
  - eexists. split; [reflexivity|].
    exact (Hadd built_div_table Id 1 "main" 3 _ ltac:(compute_done) eq_refl).
  - eexists. split; [reflexivity|].
    exact (Hrender built_div_table toString 2 "table" _ (or_intror eq_refl)
             ltac:(compute_done) eq_refl).
  - eexists. split; [reflexivity|].
    exact (Hcombine built_div_table cssSelectorBuilder
             [Selector 1; Token ">"; Selector 2] cssSelectorBuilder _
             ltac:(compute_done) eq_refl).
Defined.

(** X4.  On a heap of that shape no method changes another selector: a
    fragment method and a rendering leave the text and the history of every
    object but their receiver as they were, and [combine] those of every
    object that is neither its receiver nor one of its arguments. *)
Theorem methods_leave_others :
  (forall h k s value obj h' o,
     wf h -> add k s value h = Normal obj h' ->
     o <> s -> o < length (objects h) -> view h' o = view h o)
  /\ (forall h s t h' o,
        wf h -> stringify s h = Normal t h' ->
        o <> s -> o < length (objects h) -> view h' o = view h o)
  /\ (forall h this args res h' o,
        wf h -> combine this args h = Normal res h' ->
        o <> this -> o ∉ selectors args -> o < length (objects h) ->
        view h' o = view h o).
Proof.
  split; [|split].
  - intros h k s value obj h' o Hwf Hrun Hne Ho.
    destruct (add_inv h s k value obj h' Hwf Hrun) as (t & r & ks & Hs & Hr & _ & ->).
    by apply fragment_heap_frame.
  - intros h s t h' o Hwf Hrun Hne Ho.
    destruct (stringify_inv h s t h' Hwf Hrun) as (_ & -> & _).
    apply rendered_heap_frame; [by apply wf_view | done].
  - intros h this args res h' o Hwf Hrun Hne Hnotin Ho.
    destruct (combine_inv h this args res h' Hwf Hrun) as (_ & _ & _ & Hframe & _).
    by apply Hframe.
Qed.

Lemma methods_leave_others_witness :
  (exists h', class 2 "wide" built_div_table = Normal 3 h'
              /\ view h' 1 = Some ("div", ["element"]))
  /\ (exists h', stringify 2 built_div_table = Normal "table" h'
                 /\ view h' 1 = Some ("div", ["element"]))
  /\ (exists h', combine cssSelectorBuilder [Selector 2; Token "*"] built_div_table
                 = Normal cssSelectorBuilder h'
                 /\ view h' 1 = Some ("div", ["element"])).
Proof.
  destruct methods_leave_others as (Hadd & Hrender & Hcombine).
  split; [|split]; eexists; (split; [reflexivity|]).
  - exact (Hadd built_div_table Class 2 "wide" 3 _ 1
             ltac:(compute_done) eq_refl ltac:(discriminate) ltac:(compute_done)).
  - exact (Hrender built_div_table 2 "table" _ 1
             ltac:(compute_done) eq_refl ltac:(discriminate) ltac:(compute_done)).
  - exact (Hcombine built_div_table cssSelectorBuilder [Selector 2; Token "*"]
             cssSelectorBuilder _ 1
             ltac:(compute_done) eq_refl ltac:(discriminate) ltac:(compute_done)
             ltac:(compute_done)).
Defined.

(** X5.  [combine] uses its arguments up: every selector object passed to
    it, the receiver apart, is left with the empty text and the empty
    history, and renders as the empty string afterwards. *)
Theorem combine_empties_operands h this args res h' o :
  wf h ->
  combine this args h = Normal res h' ->
  o ∈ selectors args -> o <> this ->
  view h' o = Some ("", [])
  /\ exists h2, stringify o h' = Normal "" h2.
Proof.
  intros Hwf Hrun Hin Hne.
  destruct (combine_inv h this args res h' Hwf Hrun) as (_ & _ & _ & _ & Hempty & _).
  pose proof (Hempty o Hne Hin) as Hview. split; [done|].
  destruct (render_view h' o _ _ Hview) as (h2 & Hrender & _). by exists h2.
Qed.

Lemma combine_empties_operands_witness :
  exists h',
    combine cssSelectorBuilder [Selector 1; Token "+"; Selector 2] built_div_table
    = Normal cssSelectorBuilder h'
    /\ view h' 1 = Some ("", [])
    /\ exists h2, stringify 1 h' = Normal "" h2.
Proof.
  eexists. split; [reflexivity|].
  exact (combine_empties_operands built_div_table cssSelectorBuilder
           [Selector 1; Token "+"; Selector 2] cssSelectorBuilder _ 1
           ltac:(compute_done) eq_refl ltac:(compute_done) ltac:(discriminate)).
Defined.



(** ** Chains on a heap of that shape *)

(** A chain never gets stuck on a state of a well-formed heap; it keeps the
    shape, leaves every other object as it was, and, unless it did nothing
    at all, leaves the state it started on empty, whether it returns or
    throws. *)
Lemma chain_trace fragments : forall h s t ks,
  wf h ->
  view h s = Some (t, ks) ->
  match chain s fragments h with
  | Normal obj h' =>
      wf h' /\ length (objects h) <= length (objects h')
      /\ (forall o, o <> s -> o < length (objects h) -> view h' o = view h o)
      /\ ((obj = s /\ h' = h /\ fragments = [])
          \/ (length (objects h) <= obj /\ view h' s = Some ("", [])))
  | Throw msg h' =>
      wf h' /\ length (objects h) <= length (objects h')
      /\ (forall o, o <> s -> o < length (objects h) -> view h' o = view h o)
      /\ (h' = h \/ view h' s = Some ("", []))
  | Stuck => False
  end.
Proof.
  induction fragments as [|[k value] rest IH]; intros h s t ks Hwf Hview; simpl.
  - unfold ret. split; [done|]. split; [done|]. split; [done|]. by left.
  - pose proof (view_bound _ _ _ _ Hview) as Hs.
    destruct (add_cases h s t ks k value Hview)
      as [(_ & h1 & Hadd & Hreset & Hnew & _)|(msg & _ & Hadd)].
    + rewrite (bind_normal _ _ _ _ _ Hadd).
      destruct (add_inv h s k value _ h1 Hwf Hadd) as (t' & r & ks' & Hobj & Hr & _ & ->).
      pose proof (fragment_heap_wf h s t' r ks' (tag k) (pieces k value) Hwf Hobj Hr)
        as Hwf1.
      assert (Hlen1 : length (objects (fragment_heap h s t' r ks' (tag k)
                                         (pieces k value)))
                      = S (length (objects h))).
      { unfold fragment_heap. simpl. rewrite length_app, length_insert. simpl. lia. }
      assert (Hframe1 : forall o, o <> s -> o < length (objects h) ->
                 view (fragment_heap h s t' r ks' (tag k) (pieces k value)) o
                 = view h o).
      { intros o Hne Ho. by apply fragment_heap_frame. }
      specialize (IH _ (length (objects h)) _ _ Hwf1 Hnew).
      destruct (chain (length (objects h)) rest
                  (fragment_heap h s t' r ks' (tag k) (pieces k value)))
        as [obj h'|msg h'|]; [| |done].
      * destruct IH as (Hwf' & Hlen & Hframe & Hres).
        split; [done|]. split; [lia|]. split.
        -- intros o Hne Ho. rewrite Hframe by lia. by apply Hframe1.
        -- right. split.
           ++ destruct Hres as [(-> & _)|[Hge _]]; lia.
           ++ rewrite Hframe by lia. exact Hreset.
      * destruct IH as (Hwf' & Hlen & Hframe & _).
        split; [done|]. split; [lia|]. split.
        -- intros o Hne Ho. rewrite Hframe by lia. by apply Hframe1.
        -- right. rewrite Hframe by lia. exact Hreset.
    + rewrite (bind_throw _ _ _ _ _ Hadd).
      split; [done|]. split; [done|]. split; [done|]. by left.
Qed.

(** X7.  Two chains started one after the other on the same empty state,
    as on the base builder, are independent: when both are admissible, the
    second leaves the selector of the first as it was, and each of the two
    objects holds the text and the history of its own fragments. *)
Theorem chains_are_independent h s (first second : list (kind * string)) :
  wf h ->
  view h s = Some ("", []) ->
  first <> [] ->
  admissible (map fst first) = true ->
  admissible (map fst second) = true ->
  exists a b h',
    (a <- chain s first ;; b <- chain s second ;; ret (a, b)) h = Normal (a, b) h'
    /\ a <> s
    /\ view h' a = Some (rendered_all first, map tag (map fst first))
    /\ view h' b = Some (rendered_all second, map tag (map fst second)).
Proof.
  intros Hwf Hview Hne Hadm1 Hadm2.
  pose proof (chain_outcome first h s "" [] Hview) as Hout1.
  change (max_rank []) with 0 in Hout1. fold (admissible (map fst first)) in Hout1.
  rewrite Hadm1 in Hout1. destruct Hout1 as (a & h1 & Hchain1 & Hview1).
  pose proof (chain_trace first h s "" [] Hwf Hview) as Htrace1.
  rewrite Hchain1 in Htrace1.
  destruct Htrace1 as (Hwf1 & _ & _ & [(_ & _ & Hnil)|[Hge Hreset]]); [done|].
  pose proof (view_bound _ _ _ _ Hview) as Hs.
  pose proof (chain_outcome second h1 s "" [] Hreset) as Hout2.
  change (max_rank []) with 0 in Hout2. fold (admissible (map fst second)) in Hout2.
  rewrite Hadm2 in Hout2. destruct Hout2 as (b & h2 & Hchain2 & Hview2).
  pose proof (chain_trace second h1 s "" [] Hwf1 Hreset) as Htrace2.
  rewrite Hchain2 in Htrace2. destruct Htrace2 as (_ & _ & Hframe2 & _).
  exists a, b, h2. split; [|split; [lia|split]].
  - by rewrite (bind_normal _ _ _ _ _ Hchain1), (bind_normal _ _ _ _ _ Hchain2).
  - rewrite Hframe2; [done | lia | by eapply view_bound].
  - done.
Qed.

Lemma chains_are_independent_witness :
  exists a b h',
    (a <- chain cssSelectorBuilder [(Element, "a"); (Class, "x")] ;;
     b <- chain cssSelectorBuilder [(Id, "b"); (Class, "y"); (Class, "z")] ;;
     ret (a, b)) init = Normal (a, b) h'
    /\ a <> cssSelectorBuilder
    /\ view h' a = Some ("a.x", ["element"; "class"])
    /\ view h' b = Some ("#b.y.z", ["id"; "class"; "class"]).
Proof.
  exact (chains_are_independent init cssSelectorBuilder
           [(Element, "a"); (Class, "x")] [(Id, "b"); (Class, "y"); (Class, "z")]
           ltac:(compute_done) eq_refl ltac:(discriminate) eq_refl eq_refl).
Defined.

(** X8.  Whatever a chain does on an empty state of a well-formed heap,
    return or throw, it ends, it keeps the shape of the heap, and it leaves
    that state empty: after a chain that threw in the middle the base
    builder starts the next selector from scratch. *)
Theorem chain_leaves_start_empty h s (fragments : list (kind * string)) :
  wf h ->
  view h s = Some ("", []) ->
  exists h',
    ((exists obj, chain s fragments h = Normal obj h')
     \/ (exists msg, chain s fragments h = Throw msg h'))
    /\ wf h'
    /\ view h' s = Some ("", []).
Proof.
  intros Hwf Hview.
  pose proof (chain_trace fragments h s "" [] Hwf Hview) as Htrace.
  destruct (chain s fragments h) as [obj h'|msg h'|]; [| |done].
  - destruct Htrace as (Hwf' & _ & _ & Hres). exists h'.
    split; [left; by exists obj|]. split; [done|].
    by destruct Hres as [(_ & -> & _)|[_ ?]].
  - destruct Htrace as (Hwf' & _ & _ & Hres). exists h'.
    split; [right; by exists msg|]. split; [done|].
    by destruct Hres as [->|?].
Qed.

Lemma chain_leaves_start_empty_witness :
  exists h',
    ((exists obj,
        chain cssSelectorBuilder [(Element, "div"); (Class, "a"); (Id, "b")] init
        = Normal obj h')
     \/ (exists msg,
           chain cssSelectorBuilder [(Element, "div"); (Class, "a"); (Id, "b")] init
           = Throw msg h'))
    /\ wf h'
    /\ view h' cssSelectorBuilder = Some ("", []).
Proof.
  exact (chain_leaves_start_empty init cssSelectorBuilder
           [(Element, "div"); (Class, "a"); (Id, "b")] ltac:(compute_done) eq_refl).
Defined.

(** ** Nested combine, each nested call last *)

Lemma flattened_last ops last : last ∈ selectors (flattened ops last).
Proof.
  induction ops as [|[a tok] rest IH]; simpl; [left | by right].
Qed.

Lemma texts_nonempty h ops last ts :
  texts h (flattened ops last) = Some ts -> ts <> [].
Proof.
  destruct ops as [|[a tok] rest]; simpl; intros H; repeat case_match; by simplify_eq.
Qed.

Lemma nested_right_run ops last : forall h ts,
  cssSelectorBuilder < length (objects h) ->
  NoDup (cssSelectorBuilder :: selectors (flattened ops last)) ->
  texts h (flattened ops last) = Some ts ->
  exists res h1 r,
    nested_right ops last h = Normal res h1
    /\ objects h1 !! res = Some (Object (Some (join ts)) r)
    /\ (res = last \/ res = cssSelectorBuilder)
    /\ length (objects h1) = length (objects h)
    /\ (forall o, o <> cssSelectorBuilder -> o ∉ selectors (flattened ops last) ->
                  objects h1 !! o = objects h !! o).
Proof.
  induction ops as [|[a tok] rest IH]; intros h ts Hb Hnd Hts; simpl in *.
  - destruct (objects h !! last) as [[[tl|] r]|] eqn:Hlast; try discriminate.
    injection Hts as <-. exists last, h, r. split; [done|]. split; [done|].
    split; [by left|]. by split.
  - apply NoDup_cons in Hnd as [Hbn Hnd]. apply not_elem_of_cons in Hbn as [Hba Hbn].
    apply NoDup_cons in Hnd as [Han Hnd].
    destruct (objects h !! a) as [[[ta|] ra]|] eqn:Ha; try discriminate.
    destruct (texts h (flattened rest last)) as [ts'|] eqn:Hrest; [|discriminate].
    injection Hts as <-.
    destruct (IH h ts' Hb) as (inner & h1 & r & Hrun & Hline & Hwhich & Hlen & Hframe);
      [by apply NoDup_cons | done |].
    rewrite (bind_normal _ _ _ _ _ Hrun).
    assert (Hne : a <> inner).
    { destruct Hwhich as [-> | ->]; [|done].
      intros ->. apply Han, flattened_last. }
    assert (Ha1 : objects h1 !! a = Some (Object (Some ta) ra)).
    { rewrite Hframe by done. exact Ha. }
    destruct (combine_run h1 cssSelectorBuilder [Selector a; Token tok; Selector inner]
                [ta; tok; join ts'])
      as (h2 & r2 & Hrun2 & Hline2 & Hlen2 & Hframe2).
    + lia.
    + simpl. apply NoDup_cons. split; [|apply NoDup_singleton].
      by intros ->%list_elem_of_singleton.
    + simpl. by rewrite Ha1, Hline.
    + exists cssSelectorBuilder, h2, r2. split; [done|]. split; [|split; [by right|]].
      * rewrite Hline2. do 3 f_equal.
        pose proof (texts_nonempty h rest last ts' Hrest) as Hnonempty.
        destruct ts' as [|t' ts'']; [done|]. reflexivity.
      * split; [congruence|]. intros o Hob [Hoa Ho]%not_elem_of_cons.
        rewrite Hframe2, Hframe; try done.
        simpl. apply not_elem_of_cons. split; [done|].
        apply not_elem_of_cons. split; [|apply not_elem_of_nil].
        destruct Hwhich as [-> | ->]; [|done].
        intros ->. apply Ho, flattened_last.
Qed.

(** X9.  Nested calls of [combine] in which every nested call is the last
    argument of the enclosing one, as in the documentation of the source,
    render like one flat call: the texts of all operands and the tokens, in
    order, joined with single spaces. *)
Theorem right_nested_combine_flattens h ops last ts :
  cssSelectorBuilder < length (objects h) ->
  NoDup (cssSelectorBuilder :: selectors (flattened ops last)) ->
  texts h (flattened ops last) = Some ts ->
  exists res h1 h2,
    nested_right ops last h = Normal res h1
    /\ stringify res h1 = Normal (join ts) h2.
Proof.
  intros Hb Hnd Hts.
  destruct (nested_right_run ops last h ts Hb Hnd Hts)
    as (res & h1 & r & Hrun & Hline & _).
  exists res, h1. eexists. split; [done|]. by eapply stringify_run.
Qed.

Lemma right_nested_combine_flattens_witness :
  exists res h1 h2,
    nested_right [(1, ">"); (2, "~"); (3, "+")] 4 built_four = Normal res h1
    /\ stringify res h1 = Normal "a > b ~ c + d" h2.
Proof.
  exact (right_nested_combine_flattens built_four [(1, ">"); (2, "~"); (3, "+")] 4
           ["a"; ">"; "b"; "~"; "c"; "+"; "d"]
           ltac:(compute_done) ltac:(compute_done) eq_refl).
Defined.

(** ** validate on other strings *)

(** X10.  [validate] has no case for a string that is none of the six kind
    names: it returns [true] on every state, whatever the history holds. *)
Theorem validate_unknown_kind h s t ks addition :
  view h s = Some (t, ks) ->
  existsb (String.eqb addition) known_kinds = false ->
  validate s addition h = Normal true h.
Proof.
  intros Hview Hunknown. destruct (view_inv _ _ _ _ Hview) as (r & Hs & Hr).
  unfold validate.
  rewrite (bind_normal _ _ _ _ _ (get_order_run _ _ _ _ Hs)).
  rewrite (bind_normal _ _ _ _ _ (array_contents_run _ _ _ Hr)).
  simpl in Hunknown. repeat (apply orb_false_iff in Hunknown as [? Hunknown]).
  unfold validate_once, validate_arranged, bind.
  repeat match goal with
         | H : (addition =? _) = false |- _ => rewrite H; clear H
         end.
  reflexivity.
Qed.

Lemma validate_unknown_kind_witness :
  validate 1 "pseudo-element" built_after = Normal true built_after.
Proof.
  exact (validate_unknown_kind built_after 1 "::after" ["pseudoElement"]
           "pseudo-element" eq_refl eq_refl).
Defined.

(** ** fromJSON on other texts and other prototypes *)


Lemma assoc_None {A} (props : list (string * A)) key :
  key ∉ map fst props -> assoc key props = None.
Proof.
  induction props as [|[k v] props IH]; simpl; [done|].
  intros [Hne Hnotin]%not_elem_of_cons.
  destruct (String.eqb_spec key k) as [->|_]; [done | by apply IH].
Qed.

(** The loop of [fromJSON] over keys none of which runs a setter. *)
Lemma copy_loop_passive input entries keys :
  own_entries input = Some entries ->
  forall ans,
    (forall key, key ∈ keys ->
       (inherited (proto ans) key = Creates
        \/ (inherited (proto ans) key = Ignored /\ own ans !! key = None))
       /\ is_Some (assoc key entries)) ->
    proto (foldl (copy input) ans keys) = proto ans
    /\ forall key,
         own (foldl (copy input) ans keys) !! key
         = if decide (key ∈ keys)
           then (if creates (inherited (proto ans) key)
                 then assoc key entries else None)
           else own ans !! key.
Proof.
  intros Hentries.
  induction keys as [|k keys IH]; intros ans Hkeys; cbn [foldl].
  - split; [done|]. intros key. case_decide as Hin; [|done].
    by apply not_elem_of_nil in Hin.
  - destruct (Hkeys k) as [Hdisp [v Hv]]; [left|].
    assert (Hcopy : copy input ans k
                    = if creates (inherited (proto ans) k)
                      then Instance (proto ans) (<[k := v]> (own ans)) else ans).
    { unfold copy, get. rewrite Hentries, Hv.
      destruct Hdisp as [Hc|[Hi Hnone]].
      - rewrite Hc. simpl. by apply assign_creates.
      - rewrite Hi. simpl. unfold assign. by rewrite Hnone, Hi. }
    rewrite Hcopy.
    assert (Hproto : proto (if creates (inherited (proto ans) k)
                            then Instance (proto ans) (<[k := v]> (own ans)) else ans)
                     = proto ans) by (by destruct (creates _)).
    destruct (IH (if creates (inherited (proto ans) k)
                  then Instance (proto ans) (<[k := v]> (own ans)) else ans))
      as [Hproto' Hown].
    { intros key Hin. rewrite Hproto.
      destruct (Hkeys key) as [Hd Hsome]; [by right|]. split; [|done].
      destruct Hd as [Hc|[Hi Hnone]]; [by left|]. right. split; [done|].
      destruct (creates (inherited (proto ans) k)) eqn:Hck; [|done].
      simpl. rewrite lookup_insert_ne; [done|].
      intros ->. by rewrite Hi in Hck. }
    split; [by rewrite Hproto'|]. intros key. rewrite Hown, Hproto.
    destruct (decide (key ∈ keys)) as [Hin|Hnotin].
    + rewrite decide_True; [done | by right].
    + destruct (decide (key = k)) as [->|Hne].
      * rewrite decide_True by left.
        destruct Hdisp as [Hc|[Hi Hnone]].
        -- rewrite Hc. simpl. by rewrite lookup_insert_eq.
        -- rewrite Hi. simpl. exact Hnone.
      * rewrite decide_False by (intros [?|?]%elem_of_cons; done).
        destruct (creates (inherited (proto ans) k)); [|done].
        simpl. by rewrite lookup_insert_ne.
Qed.

Lemma fromJSON_passive (JSON_parse : string -> option value) P json input entries :
  JSON_parse json = Some input ->
  own_entries input = Some entries ->
  forallb (fun key => passive (inherited P key)) (map fst entries) = true ->
  exists ans,
    fromJSON JSON_parse P json = Some ans
    /\ proto ans = P
    /\ forall key,
         own ans !! key
         = if creates (inherited P key) then assoc key entries else None.
Proof.
  intros Hparse Hentries Hpassive. unfold fromJSON, Object_keys.
  rewrite Hparse, Hentries. simpl.
  rewrite forallb_forall in Hpassive.
  destruct (copy_loop_passive input entries (map fst entries) Hentries (Instance P ∅))
    as [Hproto Hown].
  { intros key Hin. split; [|by apply assoc_keys]. simpl.
    specialize (Hpassive key). rewrite <- list_elem_of_In in Hpassive.
    specialize (Hpassive Hin).
    destruct (inherited P key); try discriminate; [by left|].
    right. split; [done | apply lookup_empty]. }
  eexists. split; [reflexivity|]. split; [exact Hproto|].
  intros key. rewrite Hown. simpl.
  destruct (decide (key ∈ map fst entries)) as [Hin|Hnotin]; [done|].
  rewrite lookup_empty, (assoc_None _ _ Hnotin). by destruct (creates _).
Qed.

(** X12.  For the text of a JSON object and a prototype whose chain runs no
    setter for its keys (no accessor, so no [__proto__] under
    [Object.prototype]), [fromJSON] returns an object with that prototype
    that holds exactly the keys the chain lets through: a key that is a
    read-only data property of the chain is dropped, every other key has the
    value of the text. *)
Theorem fromJSON_keeps_unblocked_keys (JSON_parse : string -> option value)
    (P : prototype) (json : string) (props : list (string * value)) :
  JSON_parse json = Some (VObj props) ->
  forallb (fun key => passive (inherited P key)) (map fst props) = true ->
  exists ans,
    fromJSON JSON_parse P json = Some ans
    /\ proto ans = P
    /\ forall key,
         own ans !! key
         = if creates (inherited P key) then assoc key props else None.
Proof.
  intros Hparse Hpassive.
  by apply (fromJSON_passive JSON_parse P json (VObj props) props).
Qed.

Lemma fromJSON_keeps_unblocked_keys_witness :
  exists ans,
    fromJSON Codec.parse (Ordinary [("kind", Data false)] Object_prototype)
      (Codec.stringify (VObj [("kind", VStr "square"); ("side", VNum 2)]))
    = Some ans
    /\ own ans !! "kind" = None
    /\ own ans !! "side" = Some (VNum 2).
Proof.
  destruct (fromJSON_keeps_unblocked_keys Codec.parse
              (Ordinary [("kind", Data false)] Object_prototype)
              (Codec.stringify (VObj [("kind", VStr "square"); ("side", VNum 2)]))
              [("kind", VStr "square"); ("side", VNum 2)] eq_refl eq_refl)
    as (ans & Hrun & _ & Hown).
  exists ans. split; [exact Hrun|]. split; [exact (Hown "kind") | exact (Hown "side")].
Defined.

Lemma assoc_imap (items : list value) : forall n i,
  assoc (pretty (n + i)) (imap (fun j v => (pretty (n + j), v)) items) = items !! i.
Proof.
  induction items as [|x items IH]; intros n i; [done|].
  cbn [imap assoc].
  destruct i as [|i].
  - by rewrite String.eqb_refl.
  - destruct (String.eqb_spec (pretty (n + S i)) (pretty (n + 0))) as [Heq|_].
    { apply (inj pretty) in Heq. lia. }
    rewrite (imap_ext _ (fun j v => (pretty (S n + j), v)))
      by (intros j v _; simpl; do 2 f_equal; lia).
    replace (n + S i) with (S n + i) by lia. apply IH.
Qed.

Lemma assoc_imap_inv (items : list value) : forall n key v,
  assoc key (imap (fun j v => (pretty (n + j), v)) items) = Some v ->
  exists i, key = pretty (n + i) /\ items !! i = Some v.
Proof.
  induction items as [|x items IH]; intros n key v; [done|].
  cbn [imap assoc].
  destruct (String.eqb_spec key (pretty (n + 0))) as [->|_].
  - intros [= ->]. by exists 0.
  - rewrite (imap_ext _ (fun j v => (pretty (S n + j), v)))
      by (intros j w _; simpl; do 2 f_equal; lia).
    intros (i & -> & Hi)%IH. exists (S i). split; [f_equal; lia | done].
Qed.

(** X13.  For the text of a JSON array, [fromJSON] copies the items under
    their indices: the result has the given prototype, its key [i] in
    decimal holds the item at [i], and it has no other own key.  For the text
    of a number or of a boolean it returns an object with no own key. *)
Theorem fromJSON_of_array_and_primitive (JSON_parse : string -> option value)
    (P : prototype) (json : string) :
  (forall items,
     JSON_parse json = Some (VArr items) ->
     forallb (fun key => creates (inherited P key)) (map fst (indexed items)) = true ->
     exists ans,
       fromJSON JSON_parse P json = Some ans
       /\ proto ans = P
       /\ (forall i : nat, own ans !! pretty i = items !! i)
       /\ (forall key v, own ans !! key = Some v ->
                         exists i : nat, key = pretty i /\ items !! i = Some v))
  /\ (forall input,
        JSON_parse json = Some input ->
        (exists n, input = VNum n) \/ (exists b, input = VBool b) ->
        fromJSON JSON_parse P json = Some (Instance P ∅)).
Proof.
  split.
  - intros items Hparse Hfree.
    destruct (fromJSON_passive JSON_parse P json (VArr items) (indexed items) Hparse)
      as (ans & Hrun & Hproto & Hown); [done| |].
    { rewrite forallb_forall in Hfree |- *. intros key Hin.
      specialize (Hfree key Hin). by destruct (inherited P key). }
    assert (Hkeys : forall key, assoc key (indexed items) <> None ->
                                creates (inherited P key) = true).
    { intros key Hsome. rewrite forallb_forall in Hfree. apply Hfree.
      apply list_elem_of_In. destruct (decide (key ∈ map fst (indexed items))); [done|].
      by rewrite assoc_None in Hsome. }
    exists ans. split; [done|]. split; [done|]. split.
    + intros i. rewrite Hown.
      pose proof (assoc_imap items 0 i) as Hi. simpl in Hi. fold (indexed items) in Hi.
      destruct (items !! i) as [v|] eqn:Hitem.
      * rewrite Hkeys; [done | by rewrite Hi].
      * rewrite Hi. by destruct (creates _).
    + intros key v. rewrite Hown.
      destruct (creates (inherited P key)); [|done].
      intros (i & -> & Hi)%(assoc_imap_inv items 0). by exists i.
  - intros input Hparse Hprim. unfold fromJSON. rewrite Hparse.
    by destruct Hprim as [[n ->]|[b ->]].
Qed.

Lemma fromJSON_of_array_and_primitive_witness :
  (exists ans,
     fromJSON Codec.parse Circle_prototype "[7,true]" = Some ans
     /\ own ans !! "0" = Some (VNum 7)
     /\ own ans !! "1" = Some (VBool true)
     /\ own ans !! "2" = None)
  /\ fromJSON Codec.parse Circle_prototype "42" = Some (Instance Circle_prototype ∅).
Proof.
  destruct (fromJSON_of_array_and_primitive Codec.parse Circle_prototype "[7,true]")
    as [Harray _].
  destruct (fromJSON_of_array_and_primitive Codec.parse Circle_prototype "42")
    as [_ Hprim].
  split.
  - destruct (Harray [VNum 7; VBool true] eq_refl eq_refl)
      as (ans & Hrun & _ & Hitems & _).
    exists ans. split; [exact Hrun|].
    split; [exact (Hitems 0)|]. split; [exact (Hitems 1) | exact (Hitems 2)].
  - exact (Hprim (VNum 42) eq_refl (or_introl (ex_intro _ 42%Z eq_refl))).
Defined.



